(** * MusicQueue: the playback session of src/structs/MusicQueue.ts

    A shallow embedding of the [MusicQueue] class: its fields, the three
    event handlers wired in the constructor (connection state change, player
    state change, player error), [enqueue], [stop], [processQueue] and the
    reaction collector's [collect] handler.

    The class is event driven and single threaded.  Every handler runs
    atomically up to its next [await]; a handler that awaits is split into
    the part before the suspension and the part that resumes it, and the
    suspended continuations are kept in the world next to the session. *)

From Stdlib Require Import ZArith QArith List Bool Lia String.
Import ListNotations.
Open Scope Z_scope.

(** ** Data *)

(** [voice.AudioPlayerStatus], as far as the session distinguishes it. *)
Inductive PlayerStatus := Idle | Buffering | Playing | Paused.

(** [voice.VoiceConnectionStatus]. *)
Inductive ConnStatus := Signalling | Connecting | Ready | Disconnected | Destroyed.

(** [voice.VoiceConnectionDisconnectReason]. *)
Inductive DisconnectReason := WebSocketClose | AdapterUnavailable | EndpointRemoved | Manual.

(** The [newState] argument of the connection's stateChange listener:
    [reason] and [closeCode] are only present on some states. *)
Record ConnState := {
  cs_status : ConnStatus;
  cs_reason : option DisconnectReason;
  cs_closeCode : option Z
}.

(** Thrown values. [TypeError] is what reading a property of [undefined]
    raises; [Failure n] stands for any error raised by a collaborator. *)
Inductive Exn := TypeError | Failure (code : nat).

(** A queued track. Only its identity and duration matter here. *)
Record Song := { song_id : nat; song_duration : Z }.

(** [voice.AudioResource]: [res_volume] is the optional inline volume
    transformer ([resource.volume?]); when present it holds the last value
    given to [setVolumeLogarithmic]. *)
Record Resource := { res_song : Song; res_volume : option Q }.

(** The guild member fetched for a reaction; [canModifyQueue member]. *)
Record Member := { canModifyQueue : bool }.

(** The reaction symbols of the now-playing message. *)
Inductive Emoji :=
  | SymSkip | SymPlayPause | SymMute | SymVolumeDown | SymVolumeUp
  | SymLoop | SymShuffle | SymStop | SymOther.

(** Texts sent to the text channel. *)
Inductive Text :=
  | QueueEnded | MutedSong | UnmutedSong
  | DecreasedVolume (v : Z) | IncreasedVolume (v : Z).

(** Calls made on collaborators, in the order they happen.
    [Call_processQueue] records each entry into [processQueue]. *)
Inductive Effect :=
  | Call_processQueue
  | Song_makeResource (s : Song)
  | Player_play (r : Resource)
  | Player_stop
  | Volume_setVolumeLogarithmic (g : Q)
  | Conn_rejoin
  | Conn_destroy
  | Wait_ms (ms : Z)
  | EntersState_Ready (ms : Z)
  | ClearTimeout (t : nat)
  | Console_log (e : Exn)
  | Console_error (e : Exn)
  | Channel_send (t : Text)
  | Reaction_remove
  | Command_execute (name : string)
  | SendPlayingMessage
  | Collector_stop.

(** [config]: only the two settings the class reads. *)
Record Config := { DEFAULT_VOLUME : option Z; PRUNING : bool }.

(** The external player and connection objects, reduced to what the class
    reads from them. *)
Record AudioPlayer := { p_status : PlayerStatus }.
Record VoiceConnection := { c_status : ConnStatus; rejoinAttempts : Z }.

(** The fields of the class. *)
Record MusicQueue := {
  connection : VoiceConnection;
  player : AudioPlayer;
  resource : option Resource;
  songs : list Song;
  volume : Z;
  loop : bool;
  muted : bool;
  waitTimeout : option nat;
  queueLock : bool;
  readyLock : bool
}.

(** The session together with the trace of calls it made and the handler
    continuations suspended at an [await]:
    - [awaiting_resource]: [processQueue] invocations waiting for
      [next.makeResource()], each with its [next];
    - [awaiting_backoff]: disconnect handlers waiting in [wait(ms)];
    - [awaiting_ready]: connection handlers waiting in [entersState]. *)
Record World := {
  mq : MusicQueue;
  trace : list Effect;
  awaiting_resource : list Song;
  awaiting_backoff : list Z;
  awaiting_ready : nat
}.

(** ** Field updates *)

Definition with_connection (c : VoiceConnection) (q : MusicQueue) : MusicQueue :=
  {| connection := c; player := player q; resource := resource q; songs := songs q;
     volume := volume q; loop := loop q; muted := muted q; waitTimeout := waitTimeout q;
     queueLock := queueLock q; readyLock := readyLock q |}.
Definition with_player (p : AudioPlayer) (q : MusicQueue) : MusicQueue :=
  {| connection := connection q; player := p; resource := resource q; songs := songs q;
     volume := volume q; loop := loop q; muted := muted q; waitTimeout := waitTimeout q;
     queueLock := queueLock q; readyLock := readyLock q |}.
Definition with_resource (r : option Resource) (q : MusicQueue) : MusicQueue :=
  {| connection := connection q; player := player q; resource := r; songs := songs q;
     volume := volume q; loop := loop q; muted := muted q; waitTimeout := waitTimeout q;
     queueLock := queueLock q; readyLock := readyLock q |}.
Definition with_songs (l : list Song) (q : MusicQueue) : MusicQueue :=
  {| connection := connection q; player := player q; resource := resource q; songs := l;
     volume := volume q; loop := loop q; muted := muted q; waitTimeout := waitTimeout q;
     queueLock := queueLock q; readyLock := readyLock q |}.
Definition with_volume (v : Z) (q : MusicQueue) : MusicQueue :=
  {| connection := connection q; player := player q; resource := resource q; songs := songs q;
     volume := v; loop := loop q; muted := muted q; waitTimeout := waitTimeout q;
     queueLock := queueLock q; readyLock := readyLock q |}.
Definition with_loop (b : bool) (q : MusicQueue) : MusicQueue :=
  {| connection := connection q; player := player q; resource := resource q; songs := songs q;
     volume := volume q; loop := b; muted := muted q; waitTimeout := waitTimeout q;
     queueLock := queueLock q; readyLock := readyLock q |}.
Definition with_muted (b : bool) (q : MusicQueue) : MusicQueue :=
  {| connection := connection q; player := player q; resource := resource q; songs := songs q;
     volume := volume q; loop := loop q; muted := b; waitTimeout := waitTimeout q;
     queueLock := queueLock q; readyLock := readyLock q |}.
Definition with_queueLock (b : bool) (q : MusicQueue) : MusicQueue :=
  {| connection := connection q; player := player q; resource := resource q; songs := songs q;
     volume := volume q; loop := loop q; muted := muted q; waitTimeout := waitTimeout q;
     queueLock := b; readyLock := readyLock q |}.
Definition with_readyLock (b : bool) (q : MusicQueue) : MusicQueue :=
  {| connection := connection q; player := player q; resource := resource q; songs := songs q;
     volume := volume q; loop := loop q; muted := muted q; waitTimeout := waitTimeout q;
     queueLock := queueLock q; readyLock := b |}.

Definition on_mq (f : MusicQueue -> MusicQueue) (w : World) : World :=
  {| mq := f (mq w); trace := trace w; awaiting_resource := awaiting_resource w;
     awaiting_backoff := awaiting_backoff w; awaiting_ready := awaiting_ready w |}.
Definition with_trace (t : list Effect) (w : World) : World :=
  {| mq := mq w; trace := t; awaiting_resource := awaiting_resource w;
     awaiting_backoff := awaiting_backoff w; awaiting_ready := awaiting_ready w |}.
Definition with_awaiting_resource (l : list Song) (w : World) : World :=
  {| mq := mq w; trace := trace w; awaiting_resource := l;
     awaiting_backoff := awaiting_backoff w; awaiting_ready := awaiting_ready w |}.
Definition with_awaiting_backoff (l : list Z) (w : World) : World :=
  {| mq := mq w; trace := trace w; awaiting_resource := awaiting_resource w;
     awaiting_backoff := l; awaiting_ready := awaiting_ready w |}.
Definition with_awaiting_ready (n : nat) (w : World) : World :=
  {| mq := mq w; trace := trace w; awaiting_resource := awaiting_resource w;
     awaiting_backoff := awaiting_backoff w; awaiting_ready := n |}.

(** ** The handler monad: state, trace and exceptions *)

Inductive Res (A : Type) := Val (a : A) | Exc (e : Exn).
Arguments Val {A} a.
Arguments Exc {A} e.

Definition M (A : Type) : Type := World -> Res A * World.

Definition ret {A} (a : A) : M A := fun w => (Val a, w).
Definition throw {A} (e : Exn) : M A := fun w => (Exc e, w).
Definition bind {A B} (m : M A) (k : A -> M B) : M B :=
  fun w => match m w with
           | (Val a, w') => k a w'
           | (Exc e, w') => (Exc e, w')
           end.

Notation "x <- m ;; k" := (bind m (fun x => k))
  (at level 61, m at next level, right associativity).
Notation "m ;; k" := (bind m (fun _ => k))
  (at level 61, right associativity).

(** [try { m } catch (e) { h e }] *)
Definition try_catch {A} (m : M A) (h : Exn -> M A) : M A :=
  fun w => match m w with
           | (Val a, w') => (Val a, w')
           | (Exc e, w') => h e w'
           end.

(** [try { m } finally { f }]: [f] runs on every exit of [m]; the outcome
    of [m] is kept unless [f] itself throws. *)
Definition try_finally {A} (m : M A) (f : M unit) : M A :=
  fun w => match m w with
           | (r, w') => match f w' with
                        | (Val _, w'') => (r, w'')
                        | (Exc e, w'') => (Exc e, w'')
                        end
           end.

Definition get : M MusicQueue := fun w => (Val (mq w), w).
Definition modify (f : MusicQueue -> MusicQueue) : M unit := fun w => (Val tt, on_mq f w).
Definition emit (e : Effect) : M unit := fun w => (Val tt, with_trace (trace w ++ [e]) w).
Definition when (b : bool) (m : M unit) : M unit := if b then m else ret tt.

(** The world a handler leaves behind, whatever its outcome. *)
Definition exec {A} (m : M A) (w : World) : World := snd (m w).

(** ** Small helpers mirroring JavaScript operators *)

Definition PlayerStatus_eqb (a b : PlayerStatus) : bool :=
  match a, b with
  | Idle, Idle | Buffering, Buffering | Playing, Playing | Paused, Paused => true
  | _, _ => false
  end.

Definition ConnStatus_eqb (a b : ConnStatus) : bool :=
  match a, b with
  | Signalling, Signalling | Connecting, Connecting | Ready, Ready
  | Disconnected, Disconnected | Destroyed, Destroyed => true
  | _, _ => false
  end.

(** [array.length] used as a condition. *)
Definition nonempty {A} (l : list A) : bool :=
  match l with [] => false | _ :: _ => true end.

(** [x] used as a condition, for an optional object. *)
Definition defined {A} (o : option A) : bool :=
  match o with Some _ => true | None => false end.

(** [volume / 100], the argument given to [setVolumeLogarithmic]. *)
Definition gain_of (v : Z) : Q := v # 100.

(** [songs.shift()]: drops the head; nothing to drop on an empty array. *)
Definition shift (l : list Song) : list Song := tl l.

(** [songs.push(songs.shift()!)] on a non-empty array. *)
Definition rotate (l : list Song) : list Song :=
  match l with
  | [] => []
  | x :: rest => rest ++ [x]
  end.

(** ** The class *)

Section Session.

Variable config : Config.

(** [await p], when the promise settles as [o]. *)
Definition await {A} (o : Res A) : M A :=
  match o with
  | Val a => ret a
  | Exc e => throw e
  end.

(** Suspension at an [await]: the continuation is parked in the world. *)
Definition suspend_resource (next : Song) : M unit :=
  fun w => (Val tt, with_awaiting_resource (awaiting_resource w ++ [next]) w).
Definition suspend_backoff (ms : Z) : M unit :=
  fun w => (Val tt, with_awaiting_backoff (awaiting_backoff w ++ [ms]) w).
Definition suspend_ready : M unit :=
  fun w => (Val tt, with_awaiting_ready (S (awaiting_ready w)) w).

(** [this.player.play(resource)] on the resource just made: the player
    takes it and leaves [Idle]. It is modelled as entering [Buffering]; a
    player that finds the stream readable at once enters [Playing] instead,
    which here is the further input [In_playerStateChange Idle Playing].
    Either way the state change that [play] announces starts from [Idle]
    and reaches no branch of the player listener (see
    [player_onStateChange_from_Idle]), and no theorem below relies on which
    of the two statuses is taken. *)
Definition player_play (r : Resource) : M unit :=
  modify (with_player {| p_status := Buffering |});;
  emit (Player_play r).

(** [this.resource.volume?.setVolumeLogarithmic(g)]: reading [.volume] of an
    undefined resource throws; a resource without inline volume ignores
    the call. *)
Definition resource_setVolumeLogarithmic (g : Q) : M unit :=
  q <- get;;
  match resource q with
  | None => throw TypeError
  | Some r =>
      match res_volume r with
      | None => ret tt
      | Some _ =>
          modify (with_resource (Some {| res_song := res_song r; res_volume := Some g |}));;
          emit (Volume_setVolumeLogarithmic g)
      end
  end.

(** [this.connection.destroy()]: [raises] says whether the call throws;
    destroying a destroyed connection always does. *)
Definition connection_destroy (raises : bool) : M unit :=
  emit Conn_destroy;;
  q <- get;;
  if raises || ConnStatus_eqb (c_status (connection q)) Destroyed
  then throw (Failure 0)
  else modify (with_connection {| c_status := Destroyed;
                                  rejoinAttempts := rejoinAttempts (connection q) |}).

(** [stop()], lines 101-108. *)
Definition stop : M unit :=
  modify (with_loop false);;
  modify (with_songs []);;
  emit Player_stop;;
  when (negb (PRUNING config)) (emit (Channel_send QueueEnded)).

(** [processQueue()], lines 110-124, up to [await next.makeResource()]. *)
Definition processQueue : M unit :=
  emit Call_processQueue;;
  q <- get;;
  if queueLock q || negb (PlayerStatus_eqb (p_status (player q)) Idle) then
    ret tt
  else
    match songs q with
    | [] => stop
    | next :: _ =>
        modify (with_queueLock true);;
        emit (Song_makeResource next);;
        suspend_resource next
    end.

(** [processQueue()], lines 124-135: the rest of the [try] once
    [next.makeResource()] has settled as [o], the [catch] and the
    [finally]. [o] is a resource or a rejection; a promise fulfilled
    without a resource is not covered. *)
Definition processQueue_resume (next : Song) (o : Res Resource) : M unit :=
  try_finally
    (try_catch
       (r <- await o;;
        modify (with_resource (Some r));;
        player_play r;;
        q <- get;;
        resource_setVolumeLogarithmic (gain_of (volume q)))
       (fun error =>
          emit (Console_error error);;
          processQueue))
    (modify (with_queueLock false)).

(** The head handling shared by the player listeners (lines 72-76 and
    86-90). *)
Definition advance : M unit :=
  q <- get;;
  if loop q && nonempty (songs q)
  then modify (with_songs (rotate (songs q)))
  else modify (with_songs (shift (songs q))).

(** The player's stateChange listener, lines 70-82. *)
Definition player_onStateChange (oldS newS : PlayerStatus) : M unit :=
  if negb (PlayerStatus_eqb oldS Idle) && PlayerStatus_eqb newS Idle then
    advance;;
    q <- get;;
    when (nonempty (songs q) || defined (resource q)) processQueue
  else if PlayerStatus_eqb oldS Buffering && PlayerStatus_eqb newS Playing then
    emit SendPlayingMessage
  else ret tt.

(** The player's error listener, lines 84-92. *)
Definition player_onError (error : Exn) : M unit :=
  emit (Console_error error);;
  advance;;
  processQueue.

(** [enqueue(...songs)], lines 95-99. *)
Definition enqueue (new_songs : list Song) : M unit :=
  q <- get;;
  match waitTimeout q with
  | Some t => emit (ClearTimeout t)
  | None => ret tt
  end;;
  modify (fun q => with_songs (songs q ++ new_songs) q);;
  processQueue.

(** [newState.reason === WebSocketClose && newState.closeCode === 4014] *)
Definition closed_4014 (newState : ConnState) : bool :=
  match cs_reason newState, cs_closeCode newState with
  | Some WebSocketClose, Some code => code =? 4014
  | _, _ => false
  end.

(** The connection's stateChange listener, lines 36-68, up to its first
    [await]. *)
Definition connection_onStateChange (destroy_raises : bool) (newState : ConnState) : M unit :=
  q <- get;;
  if ConnStatus_eqb (cs_status newState) Disconnected then
    if closed_4014 newState then
      try_catch stop (fun e => emit (Console_log e);; stop)
    else if rejoinAttempts (connection q) <? 5 then
      let ms := (rejoinAttempts (connection q) + 1) * 5000 in
      emit (Wait_ms ms);;
      suspend_backoff ms
    else
      connection_destroy destroy_raises
  else if negb (readyLock q) &&
          (ConnStatus_eqb (cs_status newState) Connecting ||
           ConnStatus_eqb (cs_status newState) Signalling) then
    modify (with_readyLock true);;
    emit (EntersState_Ready 20000);;
    suspend_ready
  else ret tt.

(** Line 47, once [wait(...)] has elapsed. *)
Definition backoff_resume : M unit := emit Conn_rejoin.

(** Lines 57-66, once [entersState(...)] has settled as [o]:
    [Val tt] when [Ready] was reached, [Exc e] on timeout or error. *)
Definition ready_resume (destroy_raises : bool) (o : Res unit) : M unit :=
  try_finally
    (try_catch
       (await o)
       (fun _ =>
          q <- get;;
          when (negb (ConnStatus_eqb (c_status (connection q)) Destroyed))
            (try_catch (connection_destroy destroy_raises) (fun _ => ret tt))))
    (modify (with_readyLock false)).

(** The collector's collect listener, lines 167-242, from the settling of
    [members.fetch(user)] on. The guard [if (!this.songs) return] never
    fires: an array is truthy. The commands run by the skip, play/pause,
    loop, shuffle and stop reactions belong to the command registry: only
    the call is recorded here, and what a command then does to the session
    is not part of this listener (see [delegates]). *)
Definition collect (emoji : Emoji) (fetched : Res Member) : M unit :=
  member <- await fetched;;
  match emoji with
  | SymSkip =>
      emit Reaction_remove;;
      emit (Command_execute "skip")
  | SymPlayPause =>
      emit Reaction_remove;;
      q <- get;;
      if PlayerStatus_eqb (p_status (player q)) Playing
      then emit (Command_execute "pause")
      else emit (Command_execute "resume")
  | SymMute =>
      emit Reaction_remove;;
      if negb (canModifyQueue member) then ret tt else
      modify (fun q => with_muted (negb (muted q)) q);;
      q <- get;;
      if muted q then
        resource_setVolumeLogarithmic 0;;
        emit (Channel_send MutedSong)
      else
        resource_setVolumeLogarithmic (gain_of (volume q));;
        emit (Channel_send UnmutedSong)
  | SymVolumeDown =>
      emit Reaction_remove;;
      q <- get;;
      if volume q =? 0 then ret tt else
      if negb (canModifyQueue member) then ret tt else
      modify (with_volume (Z.max (volume q - 10) 0));;
      q' <- get;;
      resource_setVolumeLogarithmic (gain_of (volume q'));;
      emit (Channel_send (DecreasedVolume (volume q')))
  | SymVolumeUp =>
      emit Reaction_remove;;
      q <- get;;
      if volume q =? 100 then ret tt else
      if negb (canModifyQueue member) then ret tt else
      modify (with_volume (Z.min (volume q + 10) 100));;
      q' <- get;;
      resource_setVolumeLogarithmic (gain_of (volume q'));;
      emit (Channel_send (IncreasedVolume (volume q')))
  | SymLoop =>
      emit Reaction_remove;;
      emit (Command_execute "loop")
  | SymShuffle =>
      emit Reaction_remove;;
      emit (Command_execute "shuffle")
  | SymStop =>
      emit Reaction_remove;;
      emit (Command_execute "stop");;
      emit Collector_stop
  | SymOther =>
      emit Reaction_remove
  end.

(** ** The event loop *)

(** What can happen to a session: a public method is called, a collaborator
    fires a listener, or a suspended handler is resumed. *)
Inductive Input :=
  | In_enqueue (new_songs : list Song)
  | In_stop
  | In_processQueue
  | In_playerStateChange (oldS newS : PlayerStatus)
  | In_playerError (error : Exn)
  | In_resourceSettled (k : nat) (o : Res Resource)
  | In_connectionStateChange (attempts : Z) (newState : ConnState) (destroy_raises : bool)
  | In_backoffElapsed (k : nat)
  | In_readySettled (o : Res unit) (destroy_raises : bool)
  | In_collect (emoji : Emoji) (fetched : Res Member).

Fixpoint remove_nth {A} (k : nat) (l : list A) : list A :=
  match k, l with
  | _, [] => []
  | O, _ :: rest => rest
  | S k', x :: rest => x :: remove_nth k' rest
  end.

(** One turn of the event loop. The player and the connection have already
    taken their new state when their listeners run. An input that resumes a
    continuation which is not there is ignored. *)
Definition step (i : Input) (w : World) : World :=
  match i with
  | In_enqueue new_songs => exec (enqueue new_songs) w
  | In_stop => exec stop w
  | In_processQueue => exec processQueue w
  | In_playerStateChange oldS newS =>
      exec (modify (with_player {| p_status := newS |});;
            player_onStateChange oldS newS) w
  | In_playerError error => exec (player_onError error) w
  | In_resourceSettled k o =>
      match nth_error (awaiting_resource w) k with
      | Some next =>
          exec (processQueue_resume next o)
               (with_awaiting_resource (remove_nth k (awaiting_resource w)) w)
      | None => w
      end
  | In_connectionStateChange attempts newState destroy_raises =>
      exec (modify (with_connection {| c_status := cs_status newState;
                                       rejoinAttempts := attempts |});;
            connection_onStateChange destroy_raises newState) w
  | In_backoffElapsed k =>
      match nth_error (awaiting_backoff w) k with
      | Some _ =>
          exec backoff_resume
               (with_awaiting_backoff (remove_nth k (awaiting_backoff w)) w)
      | None => w
      end
  | In_readySettled o destroy_raises =>
      match awaiting_ready w with
      | S n => exec (ready_resume destroy_raises o) (with_awaiting_ready n w)
      | O => w
      end
  | In_collect emoji fetched => exec (collect emoji fetched) w
  end.

Definition run (inputs : list Input) (w : World) : World :=
  fold_left (fun w i => step i w) inputs w.

(** The session right after construction (lines 20-27), on a connection
    [conn]: [volume = config.DEFAULT_VOLUME || 100]. *)
Definition initial (conn : VoiceConnection) : World :=
  {| mq := {| connection := conn;
              player := {| p_status := Idle |};
              resource := None;
              songs := [];
              volume := match DEFAULT_VOLUME config with
                        | Some v => if v =? 0 then 100 else v
                        | None => 100
                        end;
              loop := false;
              muted := false;
              waitTimeout := None;
              queueLock := false;
              readyLock := false |};
     trace := [];
     awaiting_resource := [];
     awaiting_backoff := [];
     awaiting_ready := O |}.

(** The worlds the operations of the class can bring a session to. *)
Inductive Reachable : World -> Prop :=
  | Reachable_initial conn : Reachable (initial conn)
  | Reachable_step i w : Reachable w -> Reachable (step i w).

End Session.

(** ** Observations on worlds *)

Definition is_play (e : Effect) : bool :=
  match e with Player_play _ => true | _ => false end.

Definition is_makeResource (e : Effect) : bool :=
  match e with Song_makeResource _ => true | _ => false end.

(** How often [player.play] has been called so far. *)
Definition plays (w : World) : nat := List.length (filter is_play (trace w)).

(** How often a resource has been requested so far. *)
Definition attempts (w : World) : nat := List.length (filter is_makeResource (trace w)).

(** [queueLock] is held exactly while one [processQueue] invocation is
    suspended in [makeResource]. *)
Definition lock_consistent (w : World) : Prop :=
  (queueLock (mq w) = true /\ exists next, awaiting_resource w = [next]) \/
  (queueLock (mq w) = false /\ awaiting_resource w = []).

(** [readyLock] is held exactly while one connection handler is suspended
    in [entersState]. *)
Definition ready_consistent (w : World) : Prop :=
  (readyLock (mq w) = true /\ awaiting_ready w = 1%nat) \/
  (readyLock (mq w) = false /\ awaiting_ready w = 0%nat).

(** The resource's gain follows the stored volume while the session is not
    muted (a resource without inline volume has no gain). *)
Definition gain_in_sync (w : World) : Prop :=
  muted (mq w) = false ->
  forall r, resource (mq w) = Some r ->
            res_volume r = None \/ res_volume r = Some (gain_of (volume (mq w))).

(** A completion: the player announces a change from a non-idle status to
    [Idle]. *)
Definition is_completion (i : Input) : bool :=
  match i with
  | In_playerStateChange oldS Idle => negb (PlayerStatus_eqb oldS Idle)
  | _ => false
  end.

Definition completions (inputs : list Input) : nat :=
  List.length (filter is_completion inputs).

(** What happens during undisturbed playback: player state changes,
    triggers of the queue processor and settling resource requests. *)
Definition playback_event (i : Input) : bool :=
  match i with
  | In_playerStateChange _ _ | In_processQueue | In_resourceSettled _ _ => true
  | _ => false
  end.

(** Playing tracks one after the other: each round is the completion of the
    current track (left from status [fst round]) followed by the settling,
    as [snd round], of the resource request this may have started. *)
Definition playthrough (rounds : list (PlayerStatus * Res Resource)) : list Input :=
  flat_map (fun round => [In_playerStateChange (fst round) Idle;
                          In_resourceSettled 0 (snd round)]) rounds.

(** ** A sample session *)

Definition demo_config : Config := {| DEFAULT_VOLUME := Some 50; PRUNING := false |}.
Definition demo_connection : VoiceConnection := {| c_status := Ready; rejoinAttempts := 0 |}.
Definition song_a : Song := {| song_id := 1; song_duration := 180 |}.
Definition song_b : Song := {| song_id := 2; song_duration := 0 |}.
Definition song_c : Song := {| song_id := 3; song_duration := 240 |}.
Definition resource_of (s : Song) : Resource := {| res_song := s; res_volume := Some 1%Q |}.
Definition moderator : Member := {| canModifyQueue := true |}.
Definition bystander : Member := {| canModifyQueue := false |}.

(** Three tracks enqueued on a fresh session: the request for the first
    one is in flight. *)
Definition demo_requesting : World :=
  run demo_config [In_enqueue [song_a; song_b; song_c]] (initial demo_config demo_connection).

(** The first track's resource has arrived and is playing. *)
Definition demo_playing : World :=
  run demo_config [In_resourceSettled 0 (Val (resource_of song_a));
                   In_playerStateChange Buffering Playing] demo_requesting.

(** The request for the first track has failed: the session is idle again
    with its queue intact. *)
Definition demo_stalled : World :=
  run demo_config [In_resourceSettled 0 (Exc (Failure 7))] demo_requesting.

(** The playing session, muted and then turned down from 50 to 10. *)
Definition demo_muted_quiet : World :=
  run demo_config [In_collect SymMute (Val moderator);
                   In_collect SymVolumeDown (Val moderator);
                   In_collect SymVolumeDown (Val moderator);
                   In_collect SymVolumeDown (Val moderator);
                   In_collect SymVolumeDown (Val moderator)] demo_playing.

(** A disconnect that is not the close with code 4014. *)
Definition endpoint_removed : ConnState :=
  {| cs_status := Disconnected; cs_reason := Some EndpointRemoved; cs_closeCode := None |}.

(** The close with code 4014. *)
Definition kicked : ConnState :=
  {| cs_status := Disconnected; cs_reason := Some WebSocketClose; cs_closeCode := Some 4014 |}.

Definition signalling : ConnState :=
  {| cs_status := Signalling; cs_reason := None; cs_closeCode := None |}.

(** ** Further observations *)

(** The reactions whose branch hands over to a command of the registry
    ([this.bot.commands.get(...).execute(this.message)]). What the session
    looks like after such a reaction depends on that command. *)
Definition delegates (emoji : Emoji) : bool :=
  match emoji with
  | SymSkip | SymPlayPause | SymLoop | SymShuffle | SymStop => true
  | SymMute | SymVolumeDown | SymVolumeUp | SymOther => false
  end.

(** A resource made without inline volume. *)
Definition plain_resource_of (s : Song) : Resource :=
  {| res_song := s; res_volume := None |}.

(** The sample session playing its first track from such a resource, and
    the same session muted. *)
Definition demo_playing_plain : World :=
  run demo_config [In_resourceSettled 0 (Val (plain_resource_of song_a));
                   In_playerStateChange Buffering Playing] demo_requesting.
Definition demo_muted_plain : World :=
  run demo_config [In_collect SymMute (Val moderator)] demo_playing_plain.

(** The queue after the head handling of lines 72-76 and 86-90, for a
    session whose [loop] flag is [l]. *)
Definition advanced (l : bool) (ss : list Song) : list Song :=
  if l && nonempty ss then rotate ss else shift ss.

Definition is_rejoin (e : Effect) : bool :=
  match e with Conn_rejoin => true | _ => false end.

Definition is_wait (e : Effect) : bool :=
  match e with Wait_ms _ => true | _ => false end.

Definition is_destroy (e : Effect) : bool :=
  match e with Conn_destroy => true | _ => false end.

(** How often [connection.destroy] has been called. *)
Definition destroys (w : World) : nat := List.length (filter is_destroy (trace w)).

(** How often [connection.rejoin] has been called, and how often a backoff
    wait has been started. *)
Definition rejoins (w : World) : nat := List.length (filter is_rejoin (trace w)).
Definition waits (w : World) : nat := List.length (filter is_wait (trace w)).

Definition with_waitTimeout (t : option nat) (q : MusicQueue) : MusicQueue :=
  {| connection := connection q; player := player q; resource := resource q; songs := songs q;
     volume := volume q; loop := loop q; muted := muted q; waitTimeout := t;
     queueLock := queueLock q; readyLock := readyLock q |}.

(** The stalled sample session after a caller has stored a timer handle. *)
Definition demo_with_timer : World := on_mq (with_waitTimeout (Some 9%nat)) demo_stalled.

(** The configured default volume, when there is one, lies within 0..100. *)
Definition default_in_range (config : Config) : Prop :=
  match DEFAULT_VOLUME config with
  | Some v => 0 <= v <= 100
  | None => True
  end.

(** Trigger the queue processor and let its request fail, once per error. *)
Definition retries (errors : list Exn) : list Input :=
  flat_map (fun e => [In_processQueue; In_resourceSettled 0 (Exc e)]) errors.

(** The session has nothing in flight and nothing to play from. *)
Definition at_rest (w : World) : Prop :=
  queueLock (mq w) = false /\ p_status (player (mq w)) = Idle /\ awaiting_resource w = [].

(** ** The now-playing message *)

(** Calls made by [sendPlayingMessage] (lines 138-165) on the text channel,
    the message it sends and the console. It reads and writes no field of
    the session. *)
Inductive PanelEffect :=
  | Panel_send (s : Song)
  | Panel_react (sym : Emoji)
  | Panel_console_error (e : Exn)
  | Panel_send_error (e : Exn)
  | Panel_createReactionCollector (time : Z).

(** The reactions of lines 146-153, in order. *)
Definition controls : list Emoji :=
  [SymSkip; SymPlayPause; SymMute; SymVolumeDown; SymVolumeUp; SymLoop; SymShuffle; SymStop].

(** [await playingMessage.react(sym)] for each symbol in turn, where
    [outcome sym] is how the call for [sym] settles: the calls made, and the
    error that ended them, if any. *)
Fixpoint react_each (syms : list Emoji) (outcome : Emoji -> Res unit)
  : list PanelEffect * option Exn :=
  match syms with
  | [] => ([], None)
  | sym :: rest =>
      match outcome sym with
      | Val _ => let (made, failure) := react_each rest outcome in
                 (Panel_react sym :: made, failure)
      | Exc e => ([Panel_react sym], Some e)
      end
  end.

(** [time: song.duration > 0 ? song.duration * 1000 : 600000], line 164. *)
Definition collector_time (song : Song) : Z :=
  if song_duration song >? 0 then song_duration song * 1000 else 600000.

(** The [catch] of lines 154-158. *)
Definition panel_failed (e : Exn) : list PanelEffect :=
  [Panel_console_error e; Panel_send_error e].

(** [sendPlayingMessage], lines 138-165: [sent] is how
    [textChannel.send(song.startMessage())] settles. *)
Definition sendPlayingMessage (song : Song) (sent : Res unit) (outcome : Emoji -> Res unit)
  : list PanelEffect :=
  match sent with
  | Exc e => Panel_send song :: panel_failed e
  | Val _ =>
      match react_each controls outcome with
      | (made, Some e) => Panel_send song :: made ++ panel_failed e
      | (made, None) =>
          Panel_send song :: made ++ [Panel_createReactionCollector (collector_time song)]
      end
  end.

(** The promise was fulfilled. *)
Definition fulfilled {A} (r : Res A) : bool :=
  match r with Val _ => true | Exc _ => false end.

Definition is_collector (e : PanelEffect) : bool :=
  match e with Panel_createReactionCollector _ => true | _ => false end.

(** All reactions succeed. *)
Definition all_fine : Emoji -> Res unit := fun _ => Val tt.

(** Adding the mute reaction fails. *)
Definition mute_rejected : Emoji -> Res unit :=
  fun sym => match sym with SymMute => Exc (Failure 4) | _ => Val tt end.

(** ** Proof automation *)

Ltac unfold_handlers :=
  unfold step, exec, enqueue, player_onError, player_onStateChange, collect,
    connection_onStateChange, ready_resume, backoff_resume, processQueue_resume,
    advance, processQueue, stop, connection_destroy, closed_4014,
    resource_setVolumeLogarithmic, player_play, suspend_resource, suspend_backoff,
    suspend_ready, await, try_finally, try_catch, when, modify, emit, get, bind,
    ret, throw in *.

Ltac unfold_updates :=
  unfold on_mq, with_trace, with_awaiting_resource, with_awaiting_backoff,
    with_awaiting_ready, with_connection, with_player, with_resource, with_songs,
    with_volume, with_loop, with_muted, with_queueLock, with_readyLock in *.

Ltac break_step :=
  match goal with
  | |- context [match ?x with _ => _ end] =>
      lazymatch x with
      | context [match _ with _ => _ end] => fail
      | _ => destruct x eqn:?
      end
  end.

Ltac break_all := repeat (simpl in *; try break_step).

Ltac open_world w :=
  destruct w as [[? [?] ? ? ? ? ? ? ? ?] ? ? ? ?]; simpl in *.

Ltac count_trace :=
  unfold plays, attempts; simpl;
  repeat rewrite ?filter_app, ?length_app; simpl; try lia.

(** A queue that has just been rotated is not empty. *)
Ltac absurd_snoc :=
  match goal with
  | H : ?l ++ [_] = [] |- _ => destruct l; discriminate H
  end.

(** From a known volume, the volume after one accepted volume reaction;
    [lemma] is the equation of that reaction. *)
Ltac volume_turn lemma v v' :=
  match goal with
  | H : volume (mq ?w) = v, Hc : canModifyQueue ?m = true |- context [step ?c ?i ?w] =>
      let Hn := fresh "Hv" in
      assert (Hn : volume (mq (step c i w)) = v')
        by (rewrite (lemma w m), H; [reflexivity | rewrite H; discriminate | exact Hc]);
      clear H; generalize dependent (step c i w); clear w; intros w ?
  end.

(** ** Properties *)

Section Properties.

Variable config : Config.

Lemma PlayerStatus_eqb_eq a b : PlayerStatus_eqb a b = true <-> a = b.
Proof. destruct a, b; simpl; split; congruence. Qed.

Lemma ConnStatus_eqb_eq a b : ConnStatus_eqb a b = true <-> a = b.
Proof. destruct a, b; simpl; split; congruence. Qed.

(** The state change announced by [player.play] reaches no branch of the
    player listener. *)
Lemma player_onStateChange_to_Buffering oldS w :
  player_onStateChange config oldS Buffering w = (Val tt, w).
Proof. destruct oldS; reflexivity. Qed.

(** Nor does any state change that starts from [Idle], whatever status
    the player enters. *)
Lemma player_onStateChange_from_Idle newS w :
  player_onStateChange config Idle newS w = (Val tt, w).
Proof. destruct newS; reflexivity. Qed.

(** An invocation stopped by the guard of [processQueue]. *)
Lemma processQueue_blocked w :
  queueLock (mq w) = true \/ p_status (player (mq w)) <> Idle ->
  processQueue config w = (Val tt, with_trace (trace w ++ [Call_processQueue]) w).
Proof.
  intros H. open_world w. unfold_handlers. unfold_updates. simpl.
  destruct H as [-> | H]; [reflexivity|].
  destruct p_status0; try congruence; rewrite orb_true_r; reflexivity.
Qed.

Lemma step_lock_consistent i w :
  lock_consistent w -> lock_consistent (step config i w).
Proof.
  unfold lock_consistent. intros H. open_world w.
  destruct H as [[-> [next ->]] | [-> ->]]; destruct i; unfold_handlers; unfold_updates;
    break_all; simpl; eauto;
    try (destruct k; simpl in *; try discriminate; eauto);
    try (destruct k; simpl in *; discriminate).
Qed.

Lemma reachable_lock_consistent w : Reachable config w -> lock_consistent w.
Proof.
  induction 1 as [conn | i w _ IH].
  - right. split; reflexivity.
  - now apply step_lock_consistent.
Qed.

Lemma reachable_run inputs : forall w,
  Reachable config w -> Reachable config (run config inputs w).
Proof.
  induction inputs as [|i inputs IH]; intros w H; simpl; [assumption|].
  apply IH. now constructor.
Qed.

(** Only the resumption of a suspended [processQueue] calls [play], and it
    does so at most once. *)
Lemma step_plays i w :
  (plays (step config i w) <= plays w + 1)%nat /\
  ((forall k o, i <> In_resourceSettled k o) -> plays (step config i w) = plays w).
Proof.
  open_world w. destruct i; unfold_handlers; unfold_updates;
    (split; [| intros Hi; try (exfalso; eapply Hi; reflexivity)]);
    break_all; count_trace.
Qed.

(** While [queueLock] is held, no turn of the event loop other than the
    resumption of the suspended invocation releases it or parks another
    invocation. *)
Lemma step_keeps_suspended i w :
  queueLock (mq w) = true -> (forall k o, i <> In_resourceSettled k o) ->
  queueLock (mq (step config i w)) = true /\
  awaiting_resource (step config i w) = awaiting_resource w.
Proof.
  intros Hl Hi. open_world w. subst.
  destruct i; try (exfalso; eapply Hi; reflexivity);
    unfold_handlers; unfold_updates; break_all; split; reflexivity.
Qed.

(** C1. An invocation of [processQueue] that finds [queueLock] set or the
    player not [Idle] returns at once: it calls nothing and changes no
    field of the session (only the entry itself is recorded in the trace).
    Hence, in every world the operations can reach, a suspended invocation
    is the only one and holds the lock; a further [processQueue] trigger
    leaves the session as it is; whatever else happens before the suspended
    invocation is resumed, the lock stays held, no second invocation gets
    suspended and [play] is not called. Over any turn of the event loop
    [play] is called at most once, and only by resuming a suspended
    invocation. *)
Theorem processQueue_no_overlap :
  (forall w,
      queueLock (mq w) = true \/ p_status (player (mq w)) <> Idle ->
      processQueue config w = (Val tt, with_trace (trace w ++ [Call_processQueue]) w)) /\
  (forall w next,
      Reachable config w -> In next (awaiting_resource w) ->
      queueLock (mq w) = true /\
      awaiting_resource w = [next] /\
      mq (step config In_processQueue w) = mq w /\
      (forall i,
          (forall k o, i <> In_resourceSettled k o) ->
          queueLock (mq (step config i w)) = true /\
          awaiting_resource (step config i w) = [next] /\
          plays (step config i w) = plays w)) /\
  (forall i w,
      (plays (step config i w) <= plays w + 1)%nat /\
      ((forall k o, i <> In_resourceSettled k o) -> plays (step config i w) = plays w)).
Proof.
  split; [exact processQueue_blocked|]. split; [|exact step_plays].
  intros w next Hr Hin.
  destruct (reachable_lock_consistent w Hr) as [[Hl [n Hn]] | [_ Hn]];
    rewrite Hn in Hin; simpl in Hin; [|contradiction].
  destruct Hin as [<- | []].
  assert (Hb := processQueue_blocked w (or_introl Hl)).
  repeat split; try assumption.
  - unfold step, exec. rewrite Hb. reflexivity.
  - now apply step_keeps_suspended.
  - rewrite <- Hn. now apply step_keeps_suspended.
  - now apply step_plays.
Qed.

(** C9. The retry in the [catch] of [processQueue] runs before the
    [finally] releases [queueLock]: with the lock held, the failure path
    logs the error, enters [processQueue] once more, is stopped there by the
    guard, and only then releases the lock; nothing else changes, no
    resource is requested and no continuation is parked. In every world the
    event loop can reach the lock is held whenever a suspended invocation
    is resumed, so resuming it never requests a resource, and one trigger
    followed by the settling of its request asks for at most one resource
    and leaves no invocation behind, whatever the outcome. *)
Theorem processQueue_retry_is_blocked :
  (forall w next e,
      queueLock (mq w) = true ->
      processQueue_resume config next (Exc e) w =
        (Val tt, on_mq (with_queueLock false)
                   (with_trace (trace w ++ [Console_error e; Call_processQueue]) w))) /\
  (forall w k next o,
      Reachable config w -> nth_error (awaiting_resource w) k = Some next ->
      queueLock (mq w) = true /\
      attempts (step config (In_resourceSettled k o) w) = attempts w /\
      awaiting_resource (step config (In_resourceSettled k o) w) = []) /\
  (forall w o,
      Reachable config w ->
      (attempts (run config [In_processQueue; In_resourceSettled 0 o] w) <= attempts w + 1)%nat /\
      awaiting_resource (run config [In_processQueue; In_resourceSettled 0 o] w) = []).
Proof.
  split; [|split].
  - intros w next e Hl. open_world w. subst. unfold_handlers. unfold_updates. simpl.
    rewrite <- app_assoc. reflexivity.
  - intros w k next o Hr Hk.
    destruct (reachable_lock_consistent w Hr) as [[Hl [n Hn]] | [_ Hn]];
      rewrite Hn in Hk; [|destruct k; discriminate].
    destruct k as [|k]; [|destruct k; discriminate].
    open_world w. subst. split; [reflexivity|].
    unfold_handlers. unfold_updates. break_all; split; try reflexivity; count_trace.
  - intros w o Hr.
    destruct (reachable_lock_consistent w Hr) as [[Hl [n Hn]] | [Hl Hn]];
      open_world w; subst; unfold run; simpl; unfold_handlers; unfold_updates;
      break_all; split; try reflexivity; count_trace.
Qed.

(** C5. When [makeResource] rejects, [processQueue] logs the error and
    enters [processQueue] again; the queue is left as it was, the failed
    head included; and [queueLock] is false once the invocation is over,
    whether the request succeeded or failed. The last part follows one
    whole invocation on an idle, unlocked session. *)
Theorem processQueue_failure_keeps_head :
  (forall w next e,
      (exists rest,
          trace (exec (processQueue_resume config next (Exc e)) w) =
            trace w ++ Console_error e :: Call_processQueue :: rest) /\
      songs (mq (exec (processQueue_resume config next (Exc e)) w)) = songs (mq w) /\
      queueLock (mq (exec (processQueue_resume config next (Exc e)) w)) = false) /\
  (forall w next o,
      queueLock (mq (exec (processQueue_resume config next o) w)) = false /\
      songs (mq (exec (processQueue_resume config next o) w)) = songs (mq w)) /\
  (forall w next rest e,
      queueLock (mq w) = false -> p_status (player (mq w)) = Idle ->
      songs (mq w) = next :: rest -> awaiting_resource w = [] ->
      trace (run config [In_processQueue; In_resourceSettled 0 (Exc e)] w) =
        trace w ++ [Call_processQueue; Song_makeResource next;
                    Console_error e; Call_processQueue] /\
      songs (mq (run config [In_processQueue; In_resourceSettled 0 (Exc e)] w)) = next :: rest /\
      queueLock (mq (run config [In_processQueue; In_resourceSettled 0 (Exc e)] w)) = false /\
      awaiting_resource (run config [In_processQueue; In_resourceSettled 0 (Exc e)] w) = []).
Proof.
  split; [|split].
  - intros w next e. open_world w. unfold_handlers. unfold_updates.
    break_all; repeat split; try reflexivity;
      repeat rewrite <- app_assoc; simpl; eexists; reflexivity.
  - intros w next o. open_world w. unfold_handlers. unfold_updates.
    break_all; split; reflexivity.
  - intros w next rest e Hl Hp Hs Ha. open_world w. subst.
    unfold run; simpl. unfold_handlers. unfold_updates. simpl.
    repeat rewrite <- app_assoc. simpl. repeat split; reflexivity.
Qed.

(** *** Rotation *)

Lemma rotate_cons x (l : list Song) : rotate (x :: l) = l ++ [x].
Proof. reflexivity. Qed.

Lemma rotate_nonempty l : l <> [] -> rotate l <> [].
Proof. destruct l as [|x l]; [congruence|]. simpl. destruct l; discriminate. Qed.

Lemma rotate_prefix (l1 : list Song) : forall l2,
  Nat.iter (List.length l1) rotate (l1 ++ l2) = l2 ++ l1.
Proof.
  induction l1 as [|x l1 IH]; intros l2; simpl List.length.
  - simpl. now rewrite app_nil_r.
  - rewrite Nat.iter_succ_r. simpl app. rewrite rotate_cons, <- app_assoc, IH.
    rewrite <- app_assoc. reflexivity.
Qed.

Lemma rotate_full (l : list Song) : Nat.iter (List.length l) rotate l = l.
Proof.
  generalize (rotate_prefix l []). now rewrite app_nil_r.
Qed.

(** During looped playback of a non-empty queue, a completion rotates the
    queue and nothing else touches it. *)
Lemma step_playback_loop i w :
  loop (mq w) = true -> songs (mq w) <> [] -> playback_event i = true ->
  loop (mq (step config i w)) = true /\
  songs (mq (step config i w)) =
    (if is_completion i then rotate (songs (mq w)) else songs (mq w)).
Proof.
  intros Hl Hs Hi. open_world w. subst.
  destruct songs0 as [|x rest]; [congruence|].
  destruct i; try discriminate Hi; try destruct oldS; try destruct newS;
    unfold_handlers; unfold_updates; break_all;
    try absurd_snoc; split; reflexivity.
Qed.

Lemma run_playback_loop inputs : forall w,
  loop (mq w) = true -> songs (mq w) <> [] -> forallb playback_event inputs = true ->
  loop (mq (run config inputs w)) = true /\
  songs (mq (run config inputs w)) = Nat.iter (completions inputs) rotate (songs (mq w)).
Proof.
  induction inputs as [|i inputs IH]; intros w Hl Hs Hall; [split; [assumption|reflexivity]|].
  simpl in Hall. apply andb_true_iff in Hall as [Hi Hall].
  destruct (step_playback_loop i w Hl Hs Hi) as [Hl' Hs'].
  assert (Hne : songs (mq (step config i w)) <> []).
  { rewrite Hs'. destruct (is_completion i); [now apply rotate_nonempty|assumption]. }
  destruct (IH (step config i w) Hl' Hne Hall) as [Hl2 Hs2].
  unfold run in *. simpl. split; [assumption|].
  rewrite Hs2, Hs'. unfold completions. simpl.
  destruct (is_completion i); [|reflexivity].
  simpl List.length. now rewrite Nat.iter_succ_r.
Qed.

(** C2. With [loop] set and a non-empty queue, the player's change from a
    non-idle status to [Idle] moves the head of the queue behind the other
    tracks, which keep their order. Hence, over any stretch of playback
    (player state changes, processor triggers, settling resource requests)
    that contains as many completions as the queue has tracks, the queue is
    back in its original order. *)
Theorem loop_rotates_queue :
  (forall w oldS head rest,
      loop (mq w) = true -> songs (mq w) = head :: rest -> oldS <> Idle ->
      songs (mq (step config (In_playerStateChange oldS Idle) w)) = rest ++ [head]) /\
  (forall inputs w,
      loop (mq w) = true -> songs (mq w) <> [] ->
      forallb playback_event inputs = true ->
      completions inputs = List.length (songs (mq w)) ->
      songs (mq (run config inputs w)) = songs (mq w)).
Proof.
  split.
  - intros w oldS head rest Hl Hs Hold.
    assert (Hne : songs (mq w) <> []) by (rewrite Hs; discriminate).
    destruct (step_playback_loop (In_playerStateChange oldS Idle) w Hl Hne eq_refl) as [_ H].
    rewrite H, Hs. simpl. destruct oldS; try congruence; reflexivity.
  - intros inputs w Hl Hs Hall Hn.
    destruct (run_playback_loop inputs w Hl Hs Hall) as [_ H].
    rewrite H, Hn. apply rotate_full.
Qed.

(** *** Draining the queue *)

(** One round of [playthrough] without [loop]: the head is dropped; when it
    was the last track the session stops. *)
Lemma round_no_loop w oldS o head rest :
  loop (mq w) = false -> queueLock (mq w) = false -> awaiting_resource w = [] ->
  resource (mq w) <> None -> songs (mq w) = head :: rest -> oldS <> Idle ->
  let w' := run config [In_playerStateChange oldS Idle; In_resourceSettled 0 o] w in
  loop (mq w') = false /\ queueLock (mq w') = false /\ awaiting_resource w' = [] /\
  resource (mq w') <> None /\ songs (mq w') = rest /\
  (rest = [] ->
   trace w' = trace w ++ Call_processQueue :: Player_stop ::
                (if PRUNING config then [] else [Channel_send QueueEnded])).
Proof.
  intros Hl Hq Ha Hr Hs Hold. open_world w. subst.
  destruct resource0 as [r0|]; [clear Hr|congruence].
  unfold run; simpl.
  destruct oldS; try congruence; destruct rest as [|y rest];
    unfold_handlers; unfold_updates; break_all;
    repeat split; try reflexivity; try discriminate;
    repeat rewrite <- app_assoc; reflexivity.
Qed.

Lemma run_app inputs1 inputs2 w :
  run config (inputs1 ++ inputs2) w = run config inputs2 (run config inputs1 w).
Proof. unfold run. apply fold_left_app. Qed.

(** C4. Without [loop], the player's change from a non-idle status to
    [Idle] drops the head of the queue. Starting from a session that is
    playing the head of a queue of N >= 1 tracks (its resource held, no
    request in flight), N completions, each followed by the settling of the
    resource request it started, leave the queue empty and end with the
    session stopped: [loop] off, the queue cleared, [player.stop()] called
    and, unless pruning, the end-of-queue message sent. *)
Theorem no_loop_drains_queue :
  (forall w oldS,
      loop (mq w) = false -> oldS <> Idle ->
      songs (mq (step config (In_playerStateChange oldS Idle) w)) = tl (songs (mq w))) /\
  (forall rounds w,
      loop (mq w) = false -> queueLock (mq w) = false -> awaiting_resource w = [] ->
      resource (mq w) <> None -> songs (mq w) <> [] ->
      Forall (fun round => fst round <> Idle) rounds ->
      List.length rounds = List.length (songs (mq w)) ->
      songs (mq (run config (playthrough rounds) w)) = [] /\
      loop (mq (run config (playthrough rounds) w)) = false /\
      exists before,
        trace (run config (playthrough rounds) w) =
          before ++ Call_processQueue :: Player_stop ::
            (if PRUNING config then [] else [Channel_send QueueEnded])).
Proof.
  split.
  - intros w oldS Hl Hold. open_world w. subst.
    destruct oldS; try congruence;
      unfold_handlers; unfold_updates; break_all; unfold shift in *; congruence.
  - induction rounds as [|[oldS o] rounds IH]; intros w Hl Hq Ha Hr Hs Hold Hlen.
    + destruct (songs (mq w)); [congruence|discriminate].
    + destruct (songs (mq w)) as [|head rest] eqn:Hsongs; [congruence|].
      inversion Hold as [|? ? Hold1 Hold2]; subst. simpl in Hold1.
      change (playthrough ((oldS, o) :: rounds))
        with ([In_playerStateChange oldS Idle; In_resourceSettled 0 o] ++ playthrough rounds).
      rewrite run_app.
      destruct (round_no_loop w oldS o head rest Hl Hq Ha Hr Hsongs Hold1)
        as (Hl' & Hq' & Ha' & Hr' & Hs' & Hstop).
      set (w' := run config [In_playerStateChange oldS Idle; In_resourceSettled 0 o] w) in *.
      simpl in Hlen. injection Hlen as Hlen.
      destruct rounds as [|round rounds].
      * destruct rest; [|discriminate].
        change (run config (playthrough []) w') with w'.
        repeat split; try assumption.
        exists (trace w). now apply Hstop.
      * apply IH; try assumption.
        -- rewrite Hs'. destruct rest; [discriminate|discriminate].
        -- now rewrite Hs'.
Qed.

(** *** The connection *)

Lemma nth_error_snoc {A} (l : list A) (x : A) :
  nth_error (l ++ [x]) (List.length l) = Some x.
Proof. induction l; simpl; auto. Qed.

Lemma remove_nth_snoc {A} (l : list A) (x : A) :
  remove_nth (List.length l) (l ++ [x]) = l.
Proof. induction l; simpl; congruence. Qed.

Lemma backoff_table w newState destroy_raises :
  cs_status newState = Disconnected -> closed_4014 newState = false ->
  map (fun a => trace (step config (In_connectionStateChange a newState destroy_raises) w))
      [0; 1; 2; 3; 4] =
  map (fun ms => trace w ++ [Wait_ms ms]) [5000; 10000; 15000; 20000; 25000].
Proof.
  intros Hd Hc. open_world w. unfold step, exec, connection_onStateChange, bind, get, modify.
  simpl. rewrite Hd, Hc. reflexivity.
Qed.

(** C3. On a change of the connection to [Disconnected]:
    - after a WebSocket close with code 4014 the session is stopped
      ([loop] off, queue cleared, [player.stop()] called) and neither is
      [rejoin] called nor a backoff wait started;
    - otherwise, with [rejoinAttempts < 5], the session is left as it is,
      the handler waits [(rejoinAttempts + 1) * 5000] ms and, once the wait
      is over, calls [rejoin];
    - otherwise [destroy] is called, once, and nothing is awaited;
    - for attempts 0, 1, 2, 3, 4 the waits are 5, 10, 15, 20 and 25
      seconds. *)
Theorem disconnect_policy :
  forall w newState destroy_raises,
    cs_status newState = Disconnected ->
    let w' := exec (connection_onStateChange config destroy_raises newState) w in
    (closed_4014 newState = true ->
       loop (mq w') = false /\ songs (mq w') = [] /\
       trace w' = trace w ++ Player_stop ::
                    (if PRUNING config then [] else [Channel_send QueueEnded]) /\
       awaiting_backoff w' = awaiting_backoff w) /\
    (closed_4014 newState = false -> rejoinAttempts (connection (mq w)) < 5 ->
       mq w' = mq w /\
       trace w' = trace w ++ [Wait_ms ((rejoinAttempts (connection (mq w)) + 1) * 5000)] /\
       awaiting_backoff w' =
         awaiting_backoff w ++ [(rejoinAttempts (connection (mq w)) + 1) * 5000] /\
       trace (step config (In_backoffElapsed (List.length (awaiting_backoff w))) w') =
         trace w' ++ [Conn_rejoin]) /\
    (closed_4014 newState = false -> 5 <= rejoinAttempts (connection (mq w)) ->
       trace w' = trace w ++ [Conn_destroy] /\
       awaiting_backoff w' = awaiting_backoff w /\
       songs (mq w') = songs (mq w) /\ loop (mq w') = loop (mq w)) /\
    (closed_4014 newState = false ->
       map (fun a => trace (step config (In_connectionStateChange a newState destroy_raises) w))
           [0; 1; 2; 3; 4] =
       map (fun ms => trace w ++ [Wait_ms ms]) [5000; 10000; 15000; 20000; 25000]).
Proof.
  intros w newState destroy_raises Hd w'. subst w'.
  assert (Htable := backoff_table w newState destroy_raises Hd).
  revert Htable. generalize (map (fun ms => trace w ++ [Wait_ms ms])
                               [5000; 10000; 15000; 20000; 25000]).
  generalize (map (fun a => trace (step config
                                     (In_connectionStateChange a newState destroy_raises) w))
                [0; 1; 2; 3; 4]).
  intros table1 table2 Htable.
  open_world w. unfold exec, connection_onStateChange, bind, get. simpl. rewrite Hd. simpl.
  destruct (closed_4014 newState) eqn:Hc;
    [|destruct (Z.ltb_spec (rejoinAttempts connection0) 5) as [Hlt | Hge]];
    repeat split; intros; try discriminate; try lia; try (apply Htable; reflexivity);
    clear Htable Hc;
    try (unfold step; simpl; rewrite nth_error_snoc, remove_nth_snoc);
    unfold_handlers; unfold_updates; break_all; repeat rewrite <- app_assoc;
    first [reflexivity | discriminate].
Qed.

Lemma step_ready_consistent i w :
  ready_consistent w -> ready_consistent (step config i w).
Proof.
  unfold ready_consistent. intros H. open_world w.
  destruct H as [[-> ->] | [-> ->]]; destruct i; unfold_handlers; unfold_updates;
    break_all; simpl; auto.
Qed.

Lemma reachable_ready_consistent w : Reachable config w -> ready_consistent w.
Proof.
  induction 1 as [conn | i w _ IH].
  - right. split; reflexivity.
  - now apply step_ready_consistent.
Qed.

(** C6. A change of the connection to [Connecting] or [Signalling] does
    nothing while [readyLock] is set; otherwise it sets [readyLock] and
    waits for [Ready] with a deadline of 20000 ms. In every reachable world
    [readyLock] is set exactly while one such wait is pending, and no other
    turn of the event loop clears it. When the wait ends, whether [Ready]
    was reached or the wait was rejected (timeout or error), the handler
    ends normally with [readyLock] false, even if [destroy] raises; and
    [destroy] is called exactly when the wait was rejected and the
    connection is not [Destroyed]. *)
Theorem ready_wait_guarded :
  (forall w newState destroy_raises,
      cs_status newState = Connecting \/ cs_status newState = Signalling ->
      (readyLock (mq w) = true ->
         connection_onStateChange config destroy_raises newState w = (Val tt, w)) /\
      (readyLock (mq w) = false ->
         connection_onStateChange config destroy_raises newState w =
           (Val tt, with_awaiting_ready (S (awaiting_ready w))
                      (with_trace (trace w ++ [EntersState_Ready 20000])
                         (on_mq (with_readyLock true) w))))) /\
  (forall w, Reachable config w -> ready_consistent w) /\
  (forall i w,
      readyLock (mq w) = true -> (forall o r, i <> In_readySettled o r) ->
      readyLock (mq (step config i w)) = true) /\
  (forall w o destroy_raises,
      exists w',
        ready_resume destroy_raises o w = (Val tt, w') /\
        readyLock (mq w') = false /\
        trace w' = trace w ++
          match o with
          | Val _ => []
          | Exc _ => if ConnStatus_eqb (c_status (connection (mq w))) Destroyed
                     then [] else [Conn_destroy]
          end).
Proof.
  split; [|split; [exact reachable_ready_consistent|split]].
  - intros w newState destroy_raises Hs. open_world w.
    split; intros ->; unfold_handlers; unfold_updates; simpl;
      destruct Hs as [-> | ->]; reflexivity.
  - intros i w Hl Hi. open_world w. subst.
    destruct i; unfold_handlers; unfold_updates;
      try (exfalso; eapply Hi; reflexivity); break_all; reflexivity.
  - intros w o destroy_raises. open_world w.
    unfold_handlers. unfold_updates.
    destruct o as [[]|e]; simpl.
    + eexists; repeat split. simpl. now rewrite app_nil_r.
    + destruct connection0 as [cst att]; simpl.
      destruct cst; simpl; try rewrite orb_false_r;
        try (destruct destroy_raises; simpl; eexists; repeat split; reflexivity).
      eexists; repeat split. simpl. now rewrite app_nil_r.
Qed.

(** *** Volume and mute *)

Lemma step_volume_range i w :
  0 <= volume (mq w) <= 100 -> 0 <= volume (mq (step config i w)) <= 100.
Proof.
  intros H. open_world w.
  destruct i; unfold_handlers; unfold_updates; break_all; lia.
Qed.

Lemma run_volume_range inputs : forall w,
  0 <= volume (mq w) <= 100 -> 0 <= volume (mq (run config inputs w)) <= 100.
Proof.
  induction inputs as [|i inputs IH]; intros w H; [exact H|].
  apply (IH (step config i w)). now apply step_volume_range.
Qed.

Lemma collect_volume_down_at_zero w fetched :
  volume (mq w) = 0 -> mq (step config (In_collect SymVolumeDown fetched) w) = mq w.
Proof.
  intros Hv. open_world w. subst.
  unfold_handlers; unfold_updates; break_all; reflexivity.
Qed.

Lemma collect_volume_up_at_full w fetched :
  volume (mq w) = 100 -> mq (step config (In_collect SymVolumeUp fetched) w) = mq w.
Proof.
  intros Hv. open_world w. subst.
  unfold_handlers; unfold_updates; break_all; reflexivity.
Qed.

Lemma collect_volume_unauthorized w member emoji :
  emoji = SymVolumeDown \/ emoji = SymVolumeUp -> canModifyQueue member = false ->
  mq (step config (In_collect emoji (Val member)) w) = mq w.
Proof.
  destruct member as [c]. intros He Hc. simpl in Hc. subst c. open_world w.
  destruct He as [-> | ->]; unfold_handlers; unfold_updates; break_all; reflexivity.
Qed.

Lemma collect_volume_down w member :
  volume (mq w) <> 0 -> canModifyQueue member = true ->
  volume (mq (step config (In_collect SymVolumeDown (Val member)) w)) =
    Z.max (volume (mq w) - 10) 0.
Proof.
  destruct member as [c]. intros Hv Hc. simpl in Hc. subst c. open_world w.
  apply Z.eqb_neq in Hv.
  unfold_handlers; unfold_updates; simpl; rewrite Hv; break_all; reflexivity.
Qed.

Lemma collect_volume_up w member :
  volume (mq w) <> 100 -> canModifyQueue member = true ->
  volume (mq (step config (In_collect SymVolumeUp (Val member)) w)) =
    Z.min (volume (mq w) + 10) 100.
Proof.
  destruct member as [c]. intros Hv Hc. simpl in Hc. subst c. open_world w.
  apply Z.eqb_neq in Hv.
  unfold_handlers; unfold_updates; simpl; rewrite Hv; break_all; reflexivity.
Qed.

Lemma run_cons i inputs w :
  run config (i :: inputs) w = run config inputs (step config i w).
Proof. reflexivity. Qed.

(** C7. The stored volume, once within 0..100, stays there over every
    sequence of inputs. Volume-down leaves the session untouched at volume
    0 and for a member who may not modify the queue, and otherwise stores
    [max (volume - 10) 0]; volume-up leaves it untouched at volume 100 and
    for such a member, and otherwise stores [min (volume + 10) 100]. Five
    volume-ups from 50 end at 100; five volume-downs from 20 end at 0 and a
    sixth changes nothing. *)
Theorem volume_stays_in_range :
  (forall inputs w,
      0 <= volume (mq w) <= 100 -> 0 <= volume (mq (run config inputs w)) <= 100) /\
  (forall w fetched,
      volume (mq w) = 0 -> mq (step config (In_collect SymVolumeDown fetched) w) = mq w) /\
  (forall w fetched,
      volume (mq w) = 100 -> mq (step config (In_collect SymVolumeUp fetched) w) = mq w) /\
  (forall w member emoji,
      emoji = SymVolumeDown \/ emoji = SymVolumeUp -> canModifyQueue member = false ->
      mq (step config (In_collect emoji (Val member)) w) = mq w) /\
  (forall w member,
      volume (mq w) <> 0 -> canModifyQueue member = true ->
      volume (mq (step config (In_collect SymVolumeDown (Val member)) w)) =
        Z.max (volume (mq w) - 10) 0) /\
  (forall w member,
      volume (mq w) <> 100 -> canModifyQueue member = true ->
      volume (mq (step config (In_collect SymVolumeUp (Val member)) w)) =
        Z.min (volume (mq w) + 10) 100) /\
  (forall w member,
      volume (mq w) = 50 -> canModifyQueue member = true ->
      volume (mq (run config (repeat (In_collect SymVolumeUp (Val member)) 5) w)) = 100) /\
  (forall w member,
      volume (mq w) = 20 -> canModifyQueue member = true ->
      volume (mq (run config (repeat (In_collect SymVolumeDown (Val member)) 5) w)) = 0 /\
      mq (run config (repeat (In_collect SymVolumeDown (Val member)) 6) w) =
        mq (run config (repeat (In_collect SymVolumeDown (Val member)) 5) w)).
Proof.
  split; [exact run_volume_range|].
  split; [exact collect_volume_down_at_zero|].
  split; [exact collect_volume_up_at_full|].
  split; [exact collect_volume_unauthorized|].
  split; [exact collect_volume_down|].
  split; [exact collect_volume_up|].
  split.
  - intros w member Hv Hc. simpl repeat. rewrite !run_cons.
    volume_turn collect_volume_up 50 60.
    volume_turn collect_volume_up 60 70.
    volume_turn collect_volume_up 70 80.
    volume_turn collect_volume_up 80 90.
    volume_turn collect_volume_up 90 100.
    assumption.
  - intros w member Hv Hc. simpl repeat. rewrite !run_cons.
    volume_turn collect_volume_down 20 10.
    volume_turn collect_volume_down 10 0.
    assert (Hz : forall w', volume (mq w') = 0 ->
              volume (mq (step config (In_collect SymVolumeDown (Val member)) w')) = 0)
      by (intros w' E; rewrite collect_volume_down_at_zero; assumption).
    unfold run; simpl fold_left.
    split; [|apply collect_volume_down_at_zero]; do 3 apply Hz; assumption.
Qed.

Lemma step_gain_in_sync i w : gain_in_sync w -> gain_in_sync (step config i w).
Proof.
  unfold gain_in_sync. intros H. open_world w.
  destruct i; unfold_handlers; unfold_updates; break_all;
    intros Hm r' Hr'; simpl in *; subst;
    try discriminate;
    try (injection Hr' as <-; simpl; auto; fail);
    try (apply H; auto; fail);
    try (specialize (H eq_refl _ eq_refl); auto; fail).
Qed.

Lemma reachable_gain_in_sync w : Reachable config w -> gain_in_sync w.
Proof.
  induction 1 as [conn | i w _ IH].
  - intros _ r Hr. discriminate Hr.
  - now apply step_gain_in_sync.
Qed.

(** C8, amended. A mute reaction by a member who may modify the queue
    flips [muted] and leaves the stored volume alone. On a resource with
    inline volume it sets the gain to 0 when the session becomes muted and
    to [volume / 100] when it becomes unmuted; a resource without inline
    volume is left as it is and no gain is applied. Hence, starting from a
    session that is not muted and whose gain follows the stored volume,
    muting and unmuting again leaves the resource, gain included, exactly
    as it was; in every world the operations can reach the gain of an
    unmuted session does follow the stored volume, so there muting and
    unmuting again restores the resource exactly. *)
Theorem mute_toggle_restores_gain :
  (forall w member,
      canModifyQueue member = true ->
      muted (mq (step config (In_collect SymMute (Val member)) w)) = negb (muted (mq w)) /\
      volume (mq (step config (In_collect SymMute (Val member)) w)) = volume (mq w)) /\
  (forall w member r g,
      canModifyQueue member = true ->
      resource (mq w) = Some r -> res_volume r = Some g ->
      resource (mq (step config (In_collect SymMute (Val member)) w)) =
        Some {| res_song := res_song r;
                res_volume := Some (if muted (mq w) then gain_of (volume (mq w)) else 0%Q) |} /\
      trace (step config (In_collect SymMute (Val member)) w) =
        trace w ++ [Reaction_remove;
                    Volume_setVolumeLogarithmic
                      (if muted (mq w) then gain_of (volume (mq w)) else 0%Q);
                    Channel_send (if muted (mq w) then UnmutedSong else MutedSong)]) /\
  (forall w member r,
      canModifyQueue member = true ->
      resource (mq w) = Some r -> res_volume r = None ->
      resource (mq (step config (In_collect SymMute (Val member)) w)) = Some r /\
      trace (step config (In_collect SymMute (Val member)) w) =
        trace w ++ [Reaction_remove;
                    Channel_send (if muted (mq w) then UnmutedSong else MutedSong)]) /\
  (forall w member1 member2,
      gain_in_sync w -> muted (mq w) = false ->
      canModifyQueue member1 = true -> canModifyQueue member2 = true ->
      resource (mq (run config [In_collect SymMute (Val member1);
                                In_collect SymMute (Val member2)] w)) = resource (mq w) /\
      muted (mq (run config [In_collect SymMute (Val member1);
                             In_collect SymMute (Val member2)] w)) = false /\
      volume (mq (run config [In_collect SymMute (Val member1);
                              In_collect SymMute (Val member2)] w)) = volume (mq w)) /\
  (forall w, Reachable config w -> gain_in_sync w) /\
  (forall w member1 member2,
      Reachable config w -> muted (mq w) = false ->
      canModifyQueue member1 = true -> canModifyQueue member2 = true ->
      resource (mq (run config [In_collect SymMute (Val member1);
                                In_collect SymMute (Val member2)] w)) = resource (mq w)).
Proof.
  assert (Htwice : forall w member1 member2,
      gain_in_sync w -> muted (mq w) = false ->
      canModifyQueue member1 = true -> canModifyQueue member2 = true ->
      resource (mq (run config [In_collect SymMute (Val member1);
                                In_collect SymMute (Val member2)] w)) = resource (mq w) /\
      muted (mq (run config [In_collect SymMute (Val member1);
                             In_collect SymMute (Val member2)] w)) = false /\
      volume (mq (run config [In_collect SymMute (Val member1);
                              In_collect SymMute (Val member2)] w)) = volume (mq w)).
  { intros w [c1] [c2] Hsync Hm Hc1 Hc2. simpl in Hc1, Hc2. subst c1 c2.
    specialize (Hsync Hm).
    destruct w as [[c [ps] r s v l m wt ql rl] t ar ab rd]. simpl in *. subst m.
    unfold run; simpl.
    destruct r as [[sg [g|]]|].
    + destruct (Hsync _ eq_refl) as [Hg | Hg]; [discriminate|].
      simpl in Hg. injection Hg as ->.
      unfold_handlers; unfold_updates; simpl. repeat split; reflexivity.
    + unfold_handlers; unfold_updates; simpl. repeat split; reflexivity.
    + unfold_handlers; unfold_updates; simpl. repeat split; reflexivity. }
  split; [|split; [|split; [|split; [exact Htwice|split;
    [exact reachable_gain_in_sync|]]]]].
  - intros w [c] Hc. simpl in Hc. subst c. open_world w.
    unfold_handlers; unfold_updates; break_all; split; reflexivity.
  - intros w [c] r g Hc Hr Hg. simpl in Hc. subst c.
    destruct w as [[cn [ps] r0 s v l m wt ql rl] t ar ab rd]. simpl in *. subst.
    destruct r as [sg vg]. simpl in Hg. subst vg.
    unfold_handlers; unfold_updates. simpl. destruct m; simpl;
      repeat rewrite <- app_assoc; split; reflexivity.
  - intros w [c] r Hc Hr Hg. simpl in Hc. subst c.
    destruct w as [[cn [ps] r0 s v l m wt ql rl] t ar ab rd]. simpl in *. subst.
    destruct r as [sg vg]. simpl in Hg. subst vg.
    unfold_handlers; unfold_updates. simpl. destruct m; simpl;
      repeat rewrite <- app_assoc; split; reflexivity.
  - intros w member1 member2 Hreach Hm Hc1 Hc2.
    apply (Htwice w member1 member2); try assumption.
    now apply reachable_gain_in_sync.
Qed.

(** Every operation but the mute reaction commutes with setting [muted]:
    it neither reads nor writes the flag. *)
Lemma step_ignores_muted i w b :
  (forall fetched, i <> In_collect SymMute fetched) ->
  step config i (on_mq (with_muted b) w) = on_mq (with_muted b) (step config i w).
Proof.
  intros Hi. open_world w.
  destruct i; try destruct emoji;
    try (exfalso; eapply Hi; reflexivity);
    unfold_handlers; unfold_updates; break_all; reflexivity.
Qed.

(** C10, amended. A volume-up or volume-down reaction that passes its
    guards (volume not already at the bound, member may modify the queue)
    sets the gain of a resource with inline volume to [volume / 100] for
    the new volume and leaves [muted] as it was, also when the session is
    muted; that gain is non-zero whenever the new volume is above 0. On a
    resource without inline volume it applies no gain: the resource and
    [muted] stay as they are and only the new volume is announced. No
    operation other than the mute reaction reads or writes [muted]. *)
Theorem volume_change_ignores_mute :
  (forall w member emoji r g,
      (emoji = SymVolumeDown /\ volume (mq w) <> 0) \/
      (emoji = SymVolumeUp /\ volume (mq w) <> 100) ->
      canModifyQueue member = true ->
      resource (mq w) = Some r -> res_volume r = Some g ->
      resource (mq (step config (In_collect emoji (Val member)) w)) =
        Some {| res_song := res_song r;
                res_volume :=
                  Some (gain_of (volume (mq (step config (In_collect emoji (Val member)) w)))) |} /\
      In (Volume_setVolumeLogarithmic
            (gain_of (volume (mq (step config (In_collect emoji (Val member)) w)))))
         (trace (step config (In_collect emoji (Val member)) w)) /\
      muted (mq (step config (In_collect emoji (Val member)) w)) = muted (mq w) /\
      (0 < volume (mq (step config (In_collect emoji (Val member)) w)) ->
       ~ (gain_of (volume (mq (step config (In_collect emoji (Val member)) w))) == 0)%Q)) /\
  (forall w member emoji r,
      (emoji = SymVolumeDown /\ volume (mq w) <> 0) \/
      (emoji = SymVolumeUp /\ volume (mq w) <> 100) ->
      canModifyQueue member = true ->
      resource (mq w) = Some r -> res_volume r = None ->
      resource (mq (step config (In_collect emoji (Val member)) w)) = Some r /\
      muted (mq (step config (In_collect emoji (Val member)) w)) = muted (mq w) /\
      trace (step config (In_collect emoji (Val member)) w) =
        trace w ++
          [Reaction_remove;
           Channel_send
             (match emoji with
              | SymVolumeDown => DecreasedVolume (Z.max (volume (mq w) - 10) 0)
              | _ => IncreasedVolume (Z.min (volume (mq w) + 10) 100)
              end)]) /\
  (forall i w b,
      (forall fetched, i <> In_collect SymMute fetched) ->
      step config i (on_mq (with_muted b) w) = on_mq (with_muted b) (step config i w)).
Proof.
  split; [|split; [|exact step_ignores_muted]].
  - intros w [c] emoji [s v] g He Hc Hr Hg. simpl in Hc, Hg. subst c v.
    assert (Hnz : forall z, 0 < z -> ~ (gain_of z == 0)%Q).
    { intros z Hz. unfold gain_of, Qeq. simpl. lia. }
    open_world w. subst.
    destruct He as [[-> Hv] | [-> Hv]]; apply Z.eqb_neq in Hv;
      unfold_handlers; unfold_updates; simpl; rewrite Hv; simpl;
      (split; [reflexivity|]); (split; [|split; [reflexivity | apply Hnz]]);
      rewrite !in_app_iff; simpl; auto.
  - intros w [c] emoji [s v] He Hc Hr Hg. simpl in Hc, Hg. subst c v.
    open_world w. subst.
    destruct He as [[-> Hv] | [-> Hv]]; apply Z.eqb_neq in Hv;
      unfold_handlers; unfold_updates; simpl; rewrite Hv; simpl;
      repeat rewrite <- app_assoc; repeat split; reflexivity.
Qed.

End Properties.

(** C1 on the sample session: while the request for [song_a] is in flight
    a second trigger is stopped by the guard, and enqueueing more tracks
    does not start a second request. *)
Lemma processQueue_no_overlap_witness :
  processQueue demo_config demo_requesting =
    (Val tt, with_trace (trace demo_requesting ++ [Call_processQueue]) demo_requesting) /\
  mq (step demo_config In_processQueue demo_requesting) = mq demo_requesting /\
  awaiting_resource (step demo_config (In_enqueue [song_b]) demo_requesting) = [song_a] /\
  plays (step demo_config (In_playerError (Failure 1)) demo_requesting) =
    plays demo_requesting.
Proof.
  destruct (processQueue_no_overlap demo_config) as [Hguard [Hsecond Hplay]].
  assert (Hr : Reachable demo_config demo_requesting)
    by (apply reachable_run; constructor).
  destruct (Hsecond demo_requesting song_a Hr (or_introl eq_refl))
    as (_ & _ & Hsame & Hother).
  split; [apply Hguard; left; reflexivity|].
  split; [exact Hsame|].
  split.
  - apply (Hother (In_enqueue [song_b])). intros; discriminate.
  - apply (Hplay (In_playerError (Failure 1)) demo_requesting). intros; discriminate.
Defined.

(** C9 on the sample session: the request for [song_a] fails. *)
Lemma processQueue_retry_is_blocked_witness :
  processQueue_resume demo_config song_a (Exc (Failure 7)) demo_requesting =
    (Val tt, on_mq (with_queueLock false)
               (with_trace (trace demo_requesting ++
                            [Console_error (Failure 7); Call_processQueue])
                  demo_requesting)) /\
  attempts (step demo_config (In_resourceSettled 0 (Exc (Failure 7))) demo_requesting) =
    attempts demo_requesting /\
  awaiting_resource
    (run demo_config [In_processQueue; In_resourceSettled 0 (Exc (Failure 7))]
       demo_requesting) = [].
Proof.
  destruct (processQueue_retry_is_blocked demo_config) as [Hretry [Hresume Htrigger]].
  split; [apply Hretry; reflexivity|].
  split.
  - apply (Hresume demo_requesting 0%nat song_a).
    + apply reachable_run. constructor.
    + reflexivity.
  - apply Htrigger. apply reachable_run. constructor.
Defined.

(** C5 on the sample session, retrying after a first failure. *)
Lemma processQueue_failure_keeps_head_witness :
  songs (mq (run demo_config [In_processQueue; In_resourceSettled 0 (Exc (Failure 8))]
               demo_stalled)) = [song_a; song_b; song_c] /\
  queueLock (mq (run demo_config [In_processQueue; In_resourceSettled 0 (Exc (Failure 8))]
                   demo_stalled)) = false.
Proof.
  destruct (processQueue_failure_keeps_head demo_config) as [_ [_ Hwhole]].
  destruct (Hwhole demo_stalled song_a [song_b; song_c] (Failure 8)) as [_ [Hs [Hl _]]];
    try reflexivity.
  split; assumption.
Defined.

(** C2 on the sample session with [loop] switched on: three tracks, three
    completions. *)
Lemma loop_rotates_queue_witness :
  songs (mq (step demo_config (In_playerStateChange Playing Idle)
               (on_mq (with_loop true) demo_playing))) = [song_b; song_c; song_a] /\
  songs (mq (run demo_config
               [In_playerStateChange Playing Idle;
                In_resourceSettled 0 (Val (resource_of song_b));
                In_playerStateChange Buffering Playing;
                In_playerStateChange Playing Idle;
                In_resourceSettled 0 (Exc (Failure 3));
                In_playerStateChange Paused Idle]
               (on_mq (with_loop true) demo_playing))) = [song_a; song_b; song_c].
Proof.
  destruct (loop_rotates_queue demo_config) as [Hone Hall].
  split.
  - apply (Hone (on_mq (with_loop true) demo_playing) Playing song_a [song_b; song_c]);
      [reflexivity | reflexivity | discriminate].
  - apply (Hall _ (on_mq (with_loop true) demo_playing));
      [reflexivity | discriminate | reflexivity | reflexivity].
Defined.

(** C4 on the sample session: three tracks played to the end. *)
Lemma no_loop_drains_queue_witness :
  songs (mq (step demo_config (In_playerStateChange Playing Idle) demo_playing)) =
    [song_b; song_c] /\
  songs (mq (run demo_config
               (playthrough [(Playing, Val (resource_of song_b));
                             (Playing, Val (resource_of song_c));
                             (Playing, Val (resource_of song_a))])
               demo_playing)) = [].
Proof.
  destruct (no_loop_drains_queue demo_config) as [Hone Hall].
  split.
  - apply (Hone demo_playing Playing); [reflexivity | discriminate].
  - apply Hall; try reflexivity; try discriminate.
    repeat constructor; discriminate.
Defined.

(** C3 on the sample session: the third and the sixth consecutive
    disconnect, and the close with code 4014. *)
Lemma disconnect_policy_witness :
  trace (exec (connection_onStateChange demo_config false endpoint_removed)
           (on_mq (with_connection {| c_status := Disconnected; rejoinAttempts := 2 |})
              demo_playing)) =
    trace demo_playing ++ [Wait_ms 15000] /\
  trace (exec (connection_onStateChange demo_config false endpoint_removed)
           (on_mq (with_connection {| c_status := Disconnected; rejoinAttempts := 5 |})
              demo_playing)) =
    trace demo_playing ++ [Conn_destroy] /\
  songs (mq (exec (connection_onStateChange demo_config false kicked) demo_playing)) = [] /\
  map (fun a => trace (step demo_config (In_connectionStateChange a endpoint_removed false)
                         demo_playing)) [0; 1; 2; 3; 4] =
  map (fun ms => trace demo_playing ++ [Wait_ms ms]) [5000; 10000; 15000; 20000; 25000].
Proof.
  split; [|split; [|split]].
  - apply (disconnect_policy demo_config
             (on_mq (with_connection {| c_status := Disconnected; rejoinAttempts := 2 |})
                demo_playing)
             endpoint_removed false eq_refl); [reflexivity | reflexivity].
  - apply (disconnect_policy demo_config
             (on_mq (with_connection {| c_status := Disconnected; rejoinAttempts := 5 |})
                demo_playing)
             endpoint_removed false eq_refl); [reflexivity | discriminate].
  - apply (disconnect_policy demo_config demo_playing kicked false eq_refl). reflexivity.
  - apply (disconnect_policy demo_config demo_playing endpoint_removed false eq_refl).
    reflexivity.
Defined.

(** C6 on the sample session: the connection starts signalling while no
    wait is pending, and again while one is; a player event in between
    leaves the lock set. *)
Lemma ready_wait_guarded_witness :
  readyLock (mq (exec (connection_onStateChange demo_config false signalling) demo_playing)) =
    true /\
  connection_onStateChange demo_config false signalling
    (exec (connection_onStateChange demo_config false signalling) demo_playing) =
    (Val tt, exec (connection_onStateChange demo_config false signalling) demo_playing) /\
  ready_consistent demo_playing /\
  readyLock (mq (step demo_config (In_playerStateChange Playing Paused)
                   (exec (connection_onStateChange demo_config false signalling)
                      demo_playing))) = true.
Proof.
  destruct (ready_wait_guarded demo_config) as (Henter & Hreach & Hkeep & _).
  split; [|split; [|split]].
  - destruct (Henter demo_playing signalling false (or_intror eq_refl)) as [_ H].
    unfold exec. rewrite (H eq_refl). reflexivity.
  - apply (Henter _ signalling false (or_intror eq_refl)). reflexivity.
  - apply Hreach. unfold demo_playing, demo_requesting.
    repeat apply reachable_run. constructor.
  - apply Hkeep; [reflexivity | intros; discriminate].
Defined.

(** C7 on the sample session, whose volume is 50. *)
Lemma volume_stays_in_range_witness :
  0 <= volume (mq (run demo_config [In_collect SymVolumeUp (Val moderator);
                                    In_collect SymVolumeDown (Val bystander)]
                     demo_playing)) <= 100 /\
  mq (step demo_config (In_collect SymVolumeDown (Val moderator))
        (on_mq (with_volume 0) demo_playing)) = mq (on_mq (with_volume 0) demo_playing) /\
  mq (step demo_config (In_collect SymVolumeUp (Val moderator))
        (on_mq (with_volume 100) demo_playing)) = mq (on_mq (with_volume 100) demo_playing) /\
  mq (step demo_config (In_collect SymVolumeUp (Val bystander)) demo_playing) =
    mq demo_playing /\
  volume (mq (step demo_config (In_collect SymVolumeDown (Val moderator)) demo_playing)) =
    Z.max (volume (mq demo_playing) - 10) 0 /\
  volume (mq (step demo_config (In_collect SymVolumeUp (Val moderator)) demo_playing)) =
    Z.min (volume (mq demo_playing) + 10) 100 /\
  volume (mq (run demo_config (repeat (In_collect SymVolumeUp (Val moderator)) 5)
                demo_playing)) = 100 /\
  volume (mq (run demo_config (repeat (In_collect SymVolumeDown (Val moderator)) 5)
                (on_mq (with_volume 20) demo_playing))) = 0.
Proof.
  destruct (volume_stays_in_range demo_config)
    as (Hrange & Hzero & Hfull & Hauth & Hdown & Hup & Hfive & Hsix).
  split; [apply Hrange; vm_compute; split; discriminate|].
  split; [apply Hzero; reflexivity|].
  split; [apply Hfull; reflexivity|].
  split; [apply Hauth; [right; reflexivity | reflexivity]|].
  split; [apply Hdown; [discriminate | reflexivity]|].
  split; [apply Hup; [discriminate | reflexivity]|].
  split; [apply Hfive; reflexivity|].
  apply (Hsix (on_mq (with_volume 20) demo_playing) moderator); reflexivity.
Defined.

(** C8 as stated fails: the sample session playing from a resource
    without inline volume is reachable and not muted; an accepted mute
    reaction sets [muted], yet no gain is applied: the resource is as
    before and [setVolumeLogarithmic] is not called. *)
Lemma mute_without_inline_volume_counterexample :
  Reachable demo_config demo_playing_plain /\
  muted (mq demo_playing_plain) = false /\
  canModifyQueue moderator = true /\
  muted (mq (step demo_config (In_collect SymMute (Val moderator)) demo_playing_plain)) =
    true /\
  resource (mq (step demo_config (In_collect SymMute (Val moderator)) demo_playing_plain)) =
    Some {| res_song := song_a; res_volume := None |} /\
  trace (step demo_config (In_collect SymMute (Val moderator)) demo_playing_plain) =
    trace demo_playing_plain ++ [Reaction_remove; Channel_send MutedSong] /\
  ~ In (Volume_setVolumeLogarithmic 0%Q)
       (trace (step demo_config (In_collect SymMute (Val moderator)) demo_playing_plain)).
Proof.
  split.
  { unfold demo_playing_plain, demo_requesting. repeat apply reachable_run. constructor. }
  repeat split; try reflexivity.
  vm_compute. intuition discriminate.
Qed.

(** C8, amended, on the sample session, with and without inline volume. *)
Lemma mute_toggle_restores_gain_witness :
  muted (mq (step demo_config (In_collect SymMute (Val moderator)) demo_playing)) = true /\
  resource (mq (step demo_config (In_collect SymMute (Val moderator)) demo_playing)) =
    Some {| res_song := song_a; res_volume := Some 0%Q |} /\
  resource (mq (step demo_config (In_collect SymMute (Val moderator)) demo_playing_plain)) =
    Some (plain_resource_of song_a) /\
  resource (mq (run demo_config [In_collect SymMute (Val moderator);
                                 In_collect SymMute (Val moderator)] demo_playing)) =
    resource (mq demo_playing) /\
  resource (mq (run demo_config [In_collect SymMute (Val moderator);
                                 In_collect SymMute (Val moderator)] demo_playing_plain)) =
    resource (mq demo_playing_plain).
Proof.
  destruct (mute_toggle_restores_gain demo_config)
    as (Hflip & Hgain & Hplain & Htwice & Hreach & Hrestore).
  split; [|split; [|split; [|split]]].
  - apply (Hflip demo_playing moderator eq_refl).
  - apply (Hgain demo_playing moderator
             {| res_song := song_a; res_volume := Some (gain_of 50) |} (gain_of 50));
      reflexivity.
  - apply (Hplain demo_playing_plain moderator (plain_resource_of song_a)); reflexivity.
  - apply (Htwice demo_playing moderator moderator); try reflexivity.
    apply Hreach. unfold demo_playing, demo_requesting.
    repeat apply reachable_run. constructor.
  - apply (Hrestore demo_playing_plain moderator moderator); try reflexivity.
    unfold demo_playing_plain, demo_requesting.
    repeat apply reachable_run. constructor.
Defined.

(** A muted session whose gain a volume reaction has raised again does not
    get that gain back from unmuting and muting. *)
Remark unmute_then_mute_silences :
  muted (mq demo_muted_quiet) = true /\
  resource (mq demo_muted_quiet) =
    Some {| res_song := song_a; res_volume := Some (gain_of 10) |} /\
  resource (mq (run demo_config [In_collect SymMute (Val moderator);
                                 In_collect SymMute (Val moderator)] demo_muted_quiet)) =
    Some {| res_song := song_a; res_volume := Some 0%Q |}.
Proof. repeat split; reflexivity. Qed.

(** C10 as stated fails: on the muted sample session at volume 10 an
    accepted volume-down stores volume 0 and applies the gain 0/100, which
    is zero; and on the muted sample session playing from a resource
    without inline volume an accepted volume-up applies no gain at all. *)
Lemma volume_change_nonzero_gain_counterexample :
  (muted (mq demo_muted_quiet) = true /\
   volume (mq demo_muted_quiet) = 10 /\
   canModifyQueue moderator = true /\
   resource (mq (step demo_config (In_collect SymVolumeDown (Val moderator)) demo_muted_quiet)) =
     Some {| res_song := song_a; res_volume := Some (gain_of 0) |} /\
   last (trace (step demo_config (In_collect SymVolumeDown (Val moderator)) demo_muted_quiet))
        Call_processQueue = Channel_send (DecreasedVolume 0) /\
   In (Volume_setVolumeLogarithmic (gain_of 0))
      (trace (step demo_config (In_collect SymVolumeDown (Val moderator)) demo_muted_quiet)) /\
   (gain_of 0 == 0)%Q) /\
  (muted (mq demo_muted_plain) = true /\
   volume (mq demo_muted_plain) = 50 /\
   resource (mq (step demo_config (In_collect SymVolumeUp (Val moderator)) demo_muted_plain)) =
     Some {| res_song := song_a; res_volume := None |} /\
   volume (mq (step demo_config (In_collect SymVolumeUp (Val moderator)) demo_muted_plain)) =
     60 /\
   trace (step demo_config (In_collect SymVolumeUp (Val moderator)) demo_muted_plain) =
     trace demo_muted_plain ++ [Reaction_remove; Channel_send (IncreasedVolume 60)]).
Proof.
  split.
  - repeat split; try reflexivity.
    vm_compute. tauto.
  - repeat split; reflexivity.
Qed.

(** C10, amended, on the muted sample session at volume 10 and on the
    muted session without inline volume: volume-up. *)
Lemma volume_change_ignores_mute_witness :
  resource (mq (step demo_config (In_collect SymVolumeUp (Val moderator)) demo_muted_quiet)) =
    Some {| res_song := song_a; res_volume := Some (gain_of 20) |} /\
  muted (mq (step demo_config (In_collect SymVolumeUp (Val moderator)) demo_muted_quiet)) =
    true /\
  resource (mq (step demo_config (In_collect SymVolumeUp (Val moderator)) demo_muted_plain)) =
    Some (plain_resource_of song_a) /\
  step demo_config In_processQueue (on_mq (with_muted false) demo_muted_quiet) =
    on_mq (with_muted false) (step demo_config In_processQueue demo_muted_quiet).
Proof.
  destruct (volume_change_ignores_mute demo_config) as (Hgain & Hplain & Hframe).
  destruct (Hgain demo_muted_quiet moderator SymVolumeUp
              {| res_song := song_a; res_volume := Some (gain_of 10) |} (gain_of 10))
    as (Hr & _ & Hm & _);
    [right; split; [reflexivity | discriminate] | reflexivity | reflexivity | reflexivity |].
  destruct (Hplain demo_muted_plain moderator SymVolumeUp (plain_resource_of song_a))
    as (Hr' & _);
    [right; split; [reflexivity | discriminate] | reflexivity | reflexivity | reflexivity |].
  split; [exact Hr|].
  split; [exact Hm|].
  split; [exact Hr'|].
  apply Hframe. intros; discriminate.
Defined.

(** * Further properties of the class *)

Section MoreProperties.

Variable config : Config.

(** ** [enqueue] *)

Lemma step_enqueue_songs new_songs w :
  songs (mq (step config (In_enqueue new_songs) w)) = songs (mq w) ++ new_songs.
Proof.
  open_world w. unfold_handlers; unfold_updates; break_all; congruence.
Qed.

Lemma step_enqueue_frame new_songs w :
  volume (mq (step config (In_enqueue new_songs) w)) = volume (mq w) /\
  muted (mq (step config (In_enqueue new_songs) w)) = muted (mq w) /\
  resource (mq (step config (In_enqueue new_songs) w)) = resource (mq w) /\
  player (mq (step config (In_enqueue new_songs) w)) = player (mq w) /\
  waitTimeout (mq (step config (In_enqueue new_songs) w)) = waitTimeout (mq w).
Proof.
  open_world w. unfold_handlers; unfold_updates; break_all; repeat split; reflexivity.
Qed.

(** X1. [enqueue] appends: after it the queue is the old queue followed by
    the new tracks in the order given, in every state of the session, and a
    series of [enqueue] calls leaves the old queue followed by all batches
    in order. It never calls [play] and leaves volume, mute flag, active
    resource, player and the timer handle as they are. *)
Theorem enqueue_appends_in_order :
  (forall new_songs w,
      songs (mq (step config (In_enqueue new_songs) w)) = songs (mq w) ++ new_songs) /\
  (forall batches w,
      songs (mq (run config (map In_enqueue batches) w)) = songs (mq w) ++ List.concat batches) /\
  (forall new_songs w,
      plays (step config (In_enqueue new_songs) w) = plays w /\
      volume (mq (step config (In_enqueue new_songs) w)) = volume (mq w) /\
      muted (mq (step config (In_enqueue new_songs) w)) = muted (mq w) /\
      resource (mq (step config (In_enqueue new_songs) w)) = resource (mq w) /\
      player (mq (step config (In_enqueue new_songs) w)) = player (mq w) /\
      waitTimeout (mq (step config (In_enqueue new_songs) w)) = waitTimeout (mq w)).
Proof.
  split; [exact step_enqueue_songs|]. split.
  - induction batches as [|b batches IH]; intros w.
    + simpl. now rewrite app_nil_r.
    + simpl map. rewrite run_cons, IH, step_enqueue_songs. simpl List.concat.
      now rewrite app_assoc.
  - intros new_songs w. split; [|exact (step_enqueue_frame new_songs w)].
    apply step_plays. intros; discriminate.
Qed.

(** With the lock held, nothing but the resumption of the suspended
    invocation requests a resource. *)
Lemma step_suspended_attempts i w :
  queueLock (mq w) = true -> (forall k o, i <> In_resourceSettled k o) ->
  attempts (step config i w) = attempts w.
Proof.
  intros Hl Hi. open_world w. subst.
  destruct i; try (exfalso; eapply Hi; reflexivity);
    unfold_handlers; unfold_updates; break_all; count_trace.
Qed.

Lemma run_enqueue_suspended batches : forall w,
  queueLock (mq w) = true ->
  queueLock (mq (run config (map In_enqueue batches) w)) = true /\
  awaiting_resource (run config (map In_enqueue batches) w) = awaiting_resource w /\
  attempts (run config (map In_enqueue batches) w) = attempts w /\
  plays (run config (map In_enqueue batches) w) = plays w.
Proof.
  induction batches as [|b batches IH]; intros w Hl; [repeat split; assumption|].
  simpl map. rewrite run_cons.
  assert (Hi : forall k o, In_enqueue b <> In_resourceSettled k o) by (intros; discriminate).
  destruct (step_keeps_suspended config (In_enqueue b) w Hl Hi) as [Hl' Ha'].
  destruct (IH _ Hl') as (H1 & H2 & H3 & H4).
  repeat split; try assumption.
  - now rewrite H2.
  - rewrite H3. now apply step_suspended_attempts.
  - rewrite H4. now apply step_plays.
Qed.

Lemma enqueue_nothing_at_rest w :
  at_rest w -> songs (mq w) = [] ->
  at_rest (step config (In_enqueue []) w) /\
  songs (mq (step config (In_enqueue []) w)) = [] /\
  attempts (step config (In_enqueue []) w) = attempts w /\
  plays (step config (In_enqueue []) w) = plays w.
Proof.
  unfold at_rest. intros (Hl & Hp & Ha) Hs. open_world w. subst.
  unfold_handlers; unfold_updates; break_all; repeat split; count_trace.
Qed.

Lemma enqueue_first_at_rest first others w :
  at_rest w -> songs (mq w) = [] ->
  queueLock (mq (step config (In_enqueue (first :: others)) w)) = true /\
  awaiting_resource (step config (In_enqueue (first :: others)) w) = [first] /\
  attempts (step config (In_enqueue (first :: others)) w) = S (attempts w) /\
  plays (step config (In_enqueue (first :: others)) w) = plays w.
Proof.
  unfold at_rest. intros (Hl & Hp & Ha) Hs. open_world w. subst.
  unfold_handlers; unfold_updates; break_all; repeat split; count_trace.
Qed.

(** X2. On a session at rest (player idle, lock free, nothing in flight)
    with an empty queue, any series of [enqueue] calls that brings at least
    one track requests exactly one resource, for the first track ever
    enqueued, however many calls and tracks follow; the lock is then held
    and [play] has not been called yet. *)
Theorem enqueue_requests_first_track_once :
  forall batches w first,
    at_rest w -> songs (mq w) = [] -> hd_error (List.concat batches) = Some first ->
    awaiting_resource (run config (map In_enqueue batches) w) = [first] /\
    attempts (run config (map In_enqueue batches) w) = S (attempts w) /\
    plays (run config (map In_enqueue batches) w) = plays w /\
    queueLock (mq (run config (map In_enqueue batches) w)) = true.
Proof.
  induction batches as [|b batches IH]; intros w first Hrest Hs Hhd; [discriminate|].
  simpl map. rewrite run_cons. destruct b as [|x xs].
  - destruct (enqueue_nothing_at_rest w Hrest Hs) as (Hrest' & Hs' & Hat & Hpl).
    destruct (IH _ first Hrest' Hs' Hhd) as (H1 & H2 & H3 & H4).
    repeat split; try assumption; congruence.
  - simpl in Hhd. injection Hhd as <-.
    destruct (enqueue_first_at_rest x xs w Hrest Hs) as (Hl & Ha & Hat & Hpl).
    destruct (run_enqueue_suspended batches _ Hl) as (H1 & H2 & H3 & H4).
    repeat split; try assumption; congruence.
Qed.

(** X3. Edge cases of [enqueue]. Called with no track on a session at rest
    with an empty queue it ends the session, whether or not a timer handle
    is stored: [loop] is switched off, the queue stays empty,
    [player.stop()] is called and, unless pruning, the queue-ended text is
    sent. When a timer handle is stored, [clearTimeout] is the first call
    made, in every state and for any tracks, and the handle stays
    stored. *)
Theorem enqueue_edge_cases :
  (forall w,
      at_rest w -> songs (mq w) = [] ->
      loop (mq (step config (In_enqueue []) w)) = false /\
      songs (mq (step config (In_enqueue []) w)) = [] /\
      trace (step config (In_enqueue []) w) =
        trace w ++
          match waitTimeout (mq w) with
          | Some t => [ClearTimeout t]
          | None => []
          end ++
          Call_processQueue :: Player_stop ::
          (if PRUNING config then [] else [Channel_send QueueEnded])) /\
  (forall w new_songs t,
      waitTimeout (mq w) = Some t ->
      waitTimeout (mq (step config (In_enqueue new_songs) w)) = Some t /\
      exists rest,
        trace (step config (In_enqueue new_songs) w) =
          trace w ++ ClearTimeout t :: Call_processQueue :: rest).
Proof.
  split.
  - unfold at_rest. intros w (Hl & Hp & Ha) Hs. open_world w. subst.
    unfold_handlers; unfold_updates; break_all;
      repeat rewrite <- app_assoc; repeat split; first [reflexivity | discriminate].
  - intros w new_songs t Ht. open_world w. subst.
    unfold_handlers; unfold_updates; break_all;
      repeat rewrite <- app_assoc; simpl; split; try reflexivity; eexists; reflexivity.
Qed.


(** ** The player's error listener *)

Lemma step_playerError_songs e w :
  songs (mq (step config (In_playerError e) w)) = advanced (loop (mq w)) (songs (mq w)).
Proof.
  open_world w. unfold advanced.
  unfold_handlers; unfold_updates; break_all; unfold shift in *; congruence.
Qed.

Lemma step_playerError_busy e w :
  p_status (player (mq w)) <> Idle ->
  step config (In_playerError e) w =
    with_trace (trace w ++ [Console_error e; Call_processQueue])
      (on_mq (with_songs (advanced (loop (mq w)) (songs (mq w)))) w).
Proof.
  intros Hp. destruct w as [[c [ps] r s v l m wt ql rl] t ar ab rd]. simpl in *.
  unfold advanced.
  destruct ps; try congruence;
    unfold_handlers; unfold_updates; break_all;
    rewrite ?orb_true_r in *; try discriminate;
    repeat rewrite <- app_assoc; reflexivity.
Qed.

Lemma step_completion_songs oldS w :
  oldS <> Idle ->
  songs (mq (step config (In_playerStateChange oldS Idle) w)) =
    advanced (loop (mq w)) (songs (mq w)).
Proof.
  intros Hold. open_world w. unfold advanced.
  destruct oldS; try congruence;
    unfold_handlers; unfold_updates; break_all; unfold shift in *; congruence.
Qed.

(** X4. The player's error listener handles the head of the queue like a
    completion does, whatever the player's status: the head moves to the
    tail when [loop] is set and the queue is not empty, and is dropped
    otherwise. While the player is not [Idle], that is all it does besides
    logging: the [processQueue] it calls is stopped by the guard, so no
    resource is requested and the session is not stopped. *)
Theorem player_error_advances_queue :
  (forall e w,
      songs (mq (step config (In_playerError e) w)) =
        advanced (loop (mq w)) (songs (mq w))) /\
  (forall e w,
      p_status (player (mq w)) <> Idle ->
      step config (In_playerError e) w =
        with_trace (trace w ++ [Console_error e; Call_processQueue])
          (on_mq (with_songs (advanced (loop (mq w)) (songs (mq w)))) w)).
Proof.
  split; [exact step_playerError_songs | exact step_playerError_busy].
Qed.

(** X5. An error reported while the player is not [Idle], followed by the
    player's change to [Idle], handles the head of the queue twice: without
    [loop] two tracks are dropped, with [loop] the queue is rotated by
    two. *)
Theorem error_then_completion_advances_twice :
  forall e oldS w,
    p_status (player (mq w)) <> Idle -> oldS <> Idle ->
    songs (mq (run config [In_playerError e; In_playerStateChange oldS Idle] w)) =
      advanced (loop (mq w)) (advanced (loop (mq w)) (songs (mq w))) /\
    (loop (mq w) = false ->
     songs (mq (run config [In_playerError e; In_playerStateChange oldS Idle] w)) =
       tl (tl (songs (mq w)))).
Proof.
  intros e oldS w Hp Hold.
  assert (H : songs (mq (run config [In_playerError e; In_playerStateChange oldS Idle] w)) =
              advanced (loop (mq w)) (advanced (loop (mq w)) (songs (mq w)))).
  { rewrite !run_cons. change (run config [] ?x) with x.
    rewrite step_completion_songs by assumption.
    rewrite (step_playerError_busy e w Hp). destruct w as [q t a b r]. reflexivity. }
  split; [exact H|].
  intros Hl. rewrite H, Hl. reflexivity.
Qed.

(** ** [stop] *)

Lemma step_stop_mq w :
  mq (step config In_stop w) = with_songs [] (with_loop false (mq w)).
Proof.
  open_world w. unfold_handlers; unfold_updates; break_all; reflexivity.
Qed.

(** X6. [stop] touches nothing but [loop] and the queue: volume, mute
    flag, active resource, both locks, player, connection and every
    suspended handler are left as they are, and it neither requests a
    resource nor calls [play]. Calling it again leaves the session as the
    first call left it. *)
Theorem stop_is_local_and_idempotent :
  forall w,
    mq (step config In_stop w) = with_songs [] (with_loop false (mq w)) /\
    awaiting_resource (step config In_stop w) = awaiting_resource w /\
    awaiting_backoff (step config In_stop w) = awaiting_backoff w /\
    awaiting_ready (step config In_stop w) = awaiting_ready w /\
    plays (step config In_stop w) = plays w /\
    attempts (step config In_stop w) = attempts w /\
    mq (step config In_stop (step config In_stop w)) = mq (step config In_stop w).
Proof.
  intros w. split; [apply step_stop_mq|].
  assert (Hidem : mq (step config In_stop (step config In_stop w)) =
                  mq (step config In_stop w)).
  { rewrite !step_stop_mq. destruct (mq w). reflexivity. }
  repeat split; try exact Hidem; clear Hidem; open_world w;
    unfold_handlers; unfold_updates; break_all; try reflexivity; count_trace.
Qed.

Lemma remove_nth_length {A} (l : list A) : forall k x,
  nth_error l k = Some x -> S (List.length (remove_nth k l)) = List.length l.
Proof.
  induction l as [|a l IH]; intros [|k] x H; simpl in *; try discriminate; auto.
  f_equal. eapply IH. eassumption.
Qed.

Lemma step_stop_world w :
  step config In_stop w =
    with_trace (trace w ++ Player_stop ::
                  (if PRUNING config then [] else [Channel_send QueueEnded]))
      (on_mq (fun q => with_songs [] (with_loop false q)) w).
Proof.
  open_world w. unfold_handlers; unfold_updates; break_all;
    repeat rewrite <- app_assoc; first [reflexivity | discriminate].
Qed.

(** X7. [stop] does not cancel a resource request in flight: in every
    reachable world with a suspended [processQueue], stopping the session
    and then letting the request succeed still calls [play] with the
    resource made, on a cleared queue; the resource becomes the active one
    and the lock is released. *)
Theorem stop_keeps_request_in_flight :
  forall w next r,
    Reachable config w -> In next (awaiting_resource w) ->
    plays (run config [In_stop; In_resourceSettled 0 (Val r)] w) = S (plays w) /\
    In (Player_play r) (trace (run config [In_stop; In_resourceSettled 0 (Val r)] w)) /\
    songs (mq (run config [In_stop; In_resourceSettled 0 (Val r)] w)) = [] /\
    option_map res_song
      (resource (mq (run config [In_stop; In_resourceSettled 0 (Val r)] w))) =
      Some (res_song r) /\
    queueLock (mq (run config [In_stop; In_resourceSettled 0 (Val r)] w)) = false /\
    awaiting_resource (run config [In_stop; In_resourceSettled 0 (Val r)] w) = [].
Proof.
  intros w next r Hr Hin.
  destruct (reachable_lock_consistent config w Hr) as [[Hl [n Hn]] | [_ Hn]];
    rewrite Hn in Hin; simpl in Hin; [|contradiction].
  clear Hin Hr. rewrite run_cons, step_stop_world. rewrite run_cons.
  change (run config [] ?x) with x.
  set (stopped := Player_stop ::
                   (if PRUNING config then [] else [Channel_send QueueEnded])).
  assert (Hfilter : filter is_play stopped = []).
  { subst stopped. destruct (PRUNING config); reflexivity. }
  clearbody stopped.
  open_world w. subst. unfold_updates. simpl.
  unfold_handlers; unfold_updates; break_all; repeat split; try reflexivity;
    try (rewrite !in_app_iff; simpl; tauto);
    unfold plays; simpl; repeat rewrite ?filter_app, ?length_app; rewrite ?Hfilter;
    simpl; lia.
Qed.

(** ** Requests and playback *)

Lemma step_plays_follow_requests i w :
  (plays w + List.length (awaiting_resource w) <= attempts w)%nat ->
  (plays (step config i w) + List.length (awaiting_resource (step config i w))
   <= attempts (step config i w))%nat.
Proof.
  intros H.
  destruct i as [batch | | | oldS newS | e | k o | n newState raises | k | o raises
                 | emoji fetched].
  6: { unfold step. destruct (nth_error (awaiting_resource w) k) as [next|] eqn:Hk; [|exact H].
       apply remove_nth_length in Hk. revert H Hk.
       generalize (remove_nth k (awaiting_resource w)). intros l H Hk.
       open_world w.
       unfold_handlers; unfold_updates; break_all; revert H; count_trace. }
  all: open_world w; unfold_handlers; unfold_updates; break_all; revert H; count_trace.
Qed.

(** X8. In every reachable world each call of [play] and each request
    still in flight is backed by a resource request of its own: the calls
    of [play] plus the suspended invocations never outnumber the calls of
    [makeResource]. *)
Theorem plays_follow_requests :
  forall w,
    Reachable config w ->
    (plays w + List.length (awaiting_resource w) <= attempts w)%nat.
Proof.
  induction 1 as [conn | i w _ IH].
  - simpl. unfold plays, attempts. simpl. lia.
  - now apply step_plays_follow_requests.
Qed.

(** X9. A track that starts is played at the stored volume whatever the
    mute flag says: when the request succeeds, [play] is called with the
    resource made, and a resource with inline volume then gets the gain
    [volume / 100]; [muted] and [volume] are left as they are. A resource
    without inline volume is taken as it is. *)
Theorem new_track_starts_unmuted :
  (forall w next r g,
      res_volume r = Some g ->
      resource (mq (exec (processQueue_resume config next (Val r)) w)) =
        Some {| res_song := res_song r; res_volume := Some (gain_of (volume (mq w))) |} /\
      trace (exec (processQueue_resume config next (Val r)) w) =
        trace w ++ [Player_play r; Volume_setVolumeLogarithmic (gain_of (volume (mq w)))] /\
      muted (mq (exec (processQueue_resume config next (Val r)) w)) = muted (mq w) /\
      volume (mq (exec (processQueue_resume config next (Val r)) w)) = volume (mq w)) /\
  (forall w next r,
      res_volume r = None ->
      resource (mq (exec (processQueue_resume config next (Val r)) w)) = Some r /\
      trace (exec (processQueue_resume config next (Val r)) w) = trace w ++ [Player_play r]).
Proof.
  split.
  - intros w next [s v] g Hg. simpl in Hg. subst v. open_world w.
    unfold_handlers; unfold_updates; simpl.
    repeat rewrite <- app_assoc. repeat split; reflexivity.
  - intros w next [s v] Hg. simpl in Hg. subst v. open_world w.
    unfold_handlers; unfold_updates; simpl. split; reflexivity.
Qed.

Lemma failed_round e w next rest :
  at_rest w -> songs (mq w) = next :: rest ->
  at_rest (run config [In_processQueue; In_resourceSettled 0 (Exc e)] w) /\
  songs (mq (run config [In_processQueue; In_resourceSettled 0 (Exc e)] w)) = next :: rest /\
  attempts (run config [In_processQueue; In_resourceSettled 0 (Exc e)] w) = S (attempts w) /\
  plays (run config [In_processQueue; In_resourceSettled 0 (Exc e)] w) = plays w.
Proof.
  unfold at_rest. intros (Hl & Hp & Ha) Hs. open_world w. subst.
  unfold run; simpl. unfold_handlers; unfold_updates; break_all;
    repeat split; count_trace.
Qed.

(** X10. A head whose resource cannot be made blocks the queue: on a
    session at rest with a non-empty queue, every trigger of the processor
    whose request fails asks for the same head again and leaves the queue
    as it was; after any number of such rounds nothing has been played and
    no track has been dropped. *)
Theorem failing_head_blocks_queue :
  forall errors w next rest,
    at_rest w -> songs (mq w) = next :: rest ->
    songs (mq (run config (retries errors) w)) = next :: rest /\
    attempts (run config (retries errors) w) = (attempts w + List.length errors)%nat /\
    plays (run config (retries errors) w) = plays w /\
    at_rest (run config (retries errors) w).
Proof.
  induction errors as [|e errors IH]; intros w next rest Hrest Hs.
  - simpl. repeat split; try assumption; try apply Hrest. lia.
  - change (retries (e :: errors))
      with ([In_processQueue; In_resourceSettled 0 (Exc e)] ++ retries errors).
    rewrite run_app.
    destruct (failed_round e w next rest Hrest Hs) as (Hrest' & Hs' & Hat & Hpl).
    destruct (IH _ next rest Hrest' Hs') as (H1 & H2 & H3 & H4).
    repeat split; try assumption; try apply H4.
    + rewrite H2, Hat. simpl. lia.
    + congruence.
Qed.

(** ** The collect listener *)

(** X11. A reaction whose member cannot be fetched is dropped without a
    trace, whatever the symbol: not even the reaction is removed.
    Otherwise removing the reaction is the first call the listener makes,
    whatever the symbol. The branches that run no command (mute,
    volume-down, volume-up, unrecognised symbol) remove it once and never
    touch the queue, the [loop] flag, the locks, the player, the
    connection, the timer handle or a suspended handler, and neither
    request a resource nor call [play]. *)
Theorem collect_frame :
  (forall emoji e w, step config (In_collect emoji (Exc e)) w = w) /\
  (forall emoji member w,
      exists rest,
        trace (step config (In_collect emoji (Val member)) w) =
          trace w ++ Reaction_remove :: rest) /\
  (forall emoji member w,
      delegates emoji = false ->
      exists rest,
        trace (step config (In_collect emoji (Val member)) w) =
          trace w ++ Reaction_remove :: rest /\
        ~ In Reaction_remove rest) /\
  (forall emoji fetched w,
      delegates emoji = false ->
      songs (mq (step config (In_collect emoji fetched) w)) = songs (mq w) /\
      loop (mq (step config (In_collect emoji fetched) w)) = loop (mq w) /\
      queueLock (mq (step config (In_collect emoji fetched) w)) = queueLock (mq w) /\
      readyLock (mq (step config (In_collect emoji fetched) w)) = readyLock (mq w) /\
      player (mq (step config (In_collect emoji fetched) w)) = player (mq w) /\
      connection (mq (step config (In_collect emoji fetched) w)) = connection (mq w) /\
      waitTimeout (mq (step config (In_collect emoji fetched) w)) = waitTimeout (mq w) /\
      awaiting_resource (step config (In_collect emoji fetched) w) = awaiting_resource w /\
      awaiting_backoff (step config (In_collect emoji fetched) w) = awaiting_backoff w /\
      awaiting_ready (step config (In_collect emoji fetched) w) = awaiting_ready w /\
      plays (step config (In_collect emoji fetched) w) = plays w /\
      attempts (step config (In_collect emoji fetched) w) = attempts w).
Proof.
  split; [|split; [|split]].
  - intros emoji e w. destruct w as [q t a b r]. destruct emoji; reflexivity.
  - intros emoji member w. open_world w.
    destruct emoji; unfold_handlers; unfold_updates; break_all;
      repeat rewrite <- app_assoc; simpl; eexists; reflexivity.
  - intros emoji member w Hd. open_world w.
    destruct emoji; try discriminate Hd; unfold_handlers; unfold_updates; break_all;
      repeat rewrite <- app_assoc; simpl;
      eexists; (split; [reflexivity|]); simpl; intuition discriminate.
  - intros emoji fetched w Hd. open_world w.
    destruct emoji; try discriminate Hd; unfold_handlers; unfold_updates; break_all;
      repeat split; try reflexivity; count_trace.
Qed.

(** X12. A member who may not modify the queue can neither mute, unmute
    nor change the volume: a mute, volume-down or volume-up reaction by
    such a member only has the reaction removed, and so has an
    unrecognised symbol from anyone; the session, the trace beyond that
    removal and every suspended handler stay as they are. *)
Theorem collect_changes_need_permission :
  (forall emoji member w,
      delegates emoji = false -> canModifyQueue member = false ->
      step config (In_collect emoji (Val member)) w =
        with_trace (trace w ++ [Reaction_remove]) w) /\
  (forall member w,
      step config (In_collect SymOther (Val member)) w =
        with_trace (trace w ++ [Reaction_remove]) w).
Proof.
  split.
  - intros emoji [c] w Hd Hc. simpl in Hc. subst c. open_world w.
    destruct emoji; try discriminate Hd;
      unfold_handlers; unfold_updates; break_all; reflexivity.
  - intros member w. open_world w. reflexivity.
Qed.

(** ** The connection listener *)

(** X13. A change of the connection to [Ready] or [Destroyed] is ignored.
    Whatever the new state, unless it is the close with code 4014 the
    listener leaves queue, [loop], volume, mute flag, active resource,
    [queueLock], player, timer handle and every suspended [processQueue]
    as they are, requests no resource and calls no [play]. *)
Theorem connection_listener_frame :
  (forall w newState destroy_raises,
      cs_status newState = Ready \/ cs_status newState = Destroyed ->
      connection_onStateChange config destroy_raises newState w = (Val tt, w)) /\
  (forall w newState destroy_raises,
      closed_4014 newState = false ->
      songs (mq (exec (connection_onStateChange config destroy_raises newState) w)) =
        songs (mq w) /\
      loop (mq (exec (connection_onStateChange config destroy_raises newState) w)) =
        loop (mq w) /\
      volume (mq (exec (connection_onStateChange config destroy_raises newState) w)) =
        volume (mq w) /\
      muted (mq (exec (connection_onStateChange config destroy_raises newState) w)) =
        muted (mq w) /\
      resource (mq (exec (connection_onStateChange config destroy_raises newState) w)) =
        resource (mq w) /\
      queueLock (mq (exec (connection_onStateChange config destroy_raises newState) w)) =
        queueLock (mq w) /\
      player (mq (exec (connection_onStateChange config destroy_raises newState) w)) =
        player (mq w) /\
      waitTimeout (mq (exec (connection_onStateChange config destroy_raises newState) w)) =
        waitTimeout (mq w) /\
      awaiting_resource (exec (connection_onStateChange config destroy_raises newState) w) =
        awaiting_resource w /\
      plays (exec (connection_onStateChange config destroy_raises newState) w) = plays w /\
      attempts (exec (connection_onStateChange config destroy_raises newState) w) =
        attempts w).
Proof.
  split.
  - intros w newState destroy_raises Hs. open_world w.
    unfold connection_onStateChange, bind, get. simpl.
    destruct Hs as [-> | ->]; simpl; rewrite andb_false_r; reflexivity.
  - intros w newState destroy_raises Hc. open_world w.
    unfold exec, connection_onStateChange, bind, get. simpl. rewrite Hc.
    unfold_handlers; unfold_updates; break_all;
      repeat split; try reflexivity; count_trace.
Qed.

Lemma step_rejoins_follow_waits i w :
  (rejoins w + List.length (awaiting_backoff w))%nat = waits w ->
  (rejoins (step config i w) + List.length (awaiting_backoff (step config i w)))%nat =
    waits (step config i w).
Proof.
  intros H.
  destruct i as [batch | | | oldS newS | e | k o | n newState raises | k | o raises
                 | emoji fetched].
  8: { unfold step. destruct (nth_error (awaiting_backoff w) k) as [ms|] eqn:Hk; [|exact H].
       apply remove_nth_length in Hk. revert H Hk.
       generalize (remove_nth k (awaiting_backoff w)). intros l H Hk.
       open_world w.
       unfold_handlers; unfold_updates; break_all; revert H;
         unfold rejoins, waits; simpl;
         repeat rewrite ?filter_app, ?length_app; simpl; lia. }
  all: open_world w; unfold_handlers; unfold_updates; break_all; revert H;
    unfold rejoins, waits; simpl;
    repeat rewrite ?filter_app, ?length_app; simpl; lia.
Qed.

(** X14. In every reachable world each backoff wait that was started has
    either led to one call of [rejoin] or is still pending: [rejoin] is
    never called without a wait before it, and no wait is dropped or
    answered twice. *)
Theorem rejoins_follow_waits :
  forall w,
    Reachable config w ->
    (rejoins w + List.length (awaiting_backoff w))%nat = waits w.
Proof.
  induction 1 as [conn | i w _ IH].
  - reflexivity.
  - now apply step_rejoins_follow_waits.
Qed.

(** ** Volume of a fresh session *)

(** X15. A fresh session never starts at volume 0: a configured default of
    0, like a missing one, gives 100. With a default that is missing or
    within 0..100 the volume of every reachable world lies within 0..100. *)
Theorem reachable_volume_in_range :
  (forall conn, volume (mq (initial config conn)) <> 0) /\
  (forall conn,
      DEFAULT_VOLUME config = None \/ DEFAULT_VOLUME config = Some 0 ->
      volume (mq (initial config conn)) = 100) /\
  (forall w,
      default_in_range config -> Reachable config w -> 0 <= volume (mq w) <= 100).
Proof.
  split; [|split].
  - intros conn. simpl. destruct (DEFAULT_VOLUME config) as [v|]; [|discriminate].
    destruct (Z.eqb_spec v 0); [discriminate | assumption].
  - intros conn [H | H]; simpl; rewrite H; reflexivity.
  - intros w Hd Hr. induction Hr as [conn | i w _ IH].
    + unfold default_in_range in Hd. simpl.
      destruct (DEFAULT_VOLUME config) as [v|]; [|lia].
      destruct (Z.eqb_spec v 0); lia.
    + now apply step_volume_range.
Qed.

(** ** The player's state listener, away from completions *)

(** X16. A change of the player's state that is not a completion leaves
    the session alone: nothing but the player's status changes, no handler
    is suspended or resumed, and the only call made is the sending of the
    now-playing message, on a change from [Buffering] to [Playing].
    A completion that leaves the queue empty on a session that holds no
    resource drops the head and does nothing else: the queue processor is
    not triggered and the session is not stopped. *)
Theorem player_listener_quiet_cases :
  (forall oldS newS w,
      is_completion (In_playerStateChange oldS newS) = false ->
      step config (In_playerStateChange oldS newS) w =
        with_trace
          (trace w ++
             (if PlayerStatus_eqb oldS Buffering && PlayerStatus_eqb newS Playing
              then [SendPlayingMessage] else []))
          (on_mq (with_player {| p_status := newS |}) w)) /\
  (forall oldS w,
      oldS <> Idle -> resource (mq w) = None ->
      advanced (loop (mq w)) (songs (mq w)) = [] ->
      step config (In_playerStateChange oldS Idle) w =
        on_mq (fun q => with_songs [] (with_player {| p_status := Idle |} q)) w).
Proof.
  split.
  - intros oldS newS w Hc. open_world w.
    destruct oldS, newS; try discriminate Hc;
      unfold_handlers; unfold_updates; simpl; rewrite ?app_nil_r; reflexivity.
  - intros oldS w Hold Hr Hadv.
    destruct w as [[c [ps] r s v l m wt ql rl] t ar ab rd]. simpl in *. subst r.
    unfold advanced in Hadv.
    destruct oldS; try congruence;
      unfold_handlers; unfold_updates; simpl;
      destruct (l && nonempty s); simpl; rewrite Hadv; reflexivity.
Qed.

(** ** The now-playing message *)

Lemma react_each_fulfilled syms outcome :
  forallb (fun sym => fulfilled (outcome sym)) syms = true ->
  react_each syms outcome = (map Panel_react syms, None).
Proof.
  induction syms as [|sym syms IH]; intros H; [reflexivity|].
  simpl in *. apply andb_true_iff in H as [Hs H].
  destruct (outcome sym); [|discriminate]. now rewrite (IH H).
Qed.

Lemma react_each_rejected syms outcome :
  forallb (fun sym => fulfilled (outcome sym)) syms = false ->
  exists done sym later e,
    syms = done ++ sym :: later /\
    forallb (fun sym => fulfilled (outcome sym)) done = true /\
    outcome sym = Exc e /\
    react_each syms outcome = (map Panel_react (done ++ [sym]), Some e).
Proof.
  induction syms as [|sym syms IH]; intros H; [discriminate|].
  simpl in *. destruct (outcome sym) as [u|e] eqn:Hs; simpl in H.
  - destruct (IH H) as (done & sym' & later & e & -> & Hd & He & Hr).
    exists (sym :: done), sym', later, e. simpl. rewrite Hs, Hr.
    repeat split; assumption.
  - exists [], sym, syms, e. repeat split; assumption.
Qed.

Lemma no_collector_in_reacts syms :
  existsb is_collector (map Panel_react syms) = false.
Proof. induction syms; simpl; auto. Qed.

Lemma collector_time_positive :
  forall song,
    0 < collector_time song /\
    (0 < song_duration song -> collector_time song = song_duration song * 1000) /\
    (song_duration song <= 0 -> collector_time song = 600000).
Proof.
  intros song. unfold collector_time.
  destruct (Z.gtb_spec (song_duration song) 0); repeat split; intros; lia.
Qed.

(** X17. [sendPlayingMessage] opens the reaction collector exactly when
    the message was sent and all eight reactions could be added; it then
    has sent the message, added the eight reactions in their order and
    created one collector, whose lifetime is positive. When the sending fails, or adding one of the
    reactions does, no collector is created: the reactions before the
    failing one have been added, in order, the error is logged and its
    message sent to the channel, and nothing follows. *)
Theorem sendPlayingMessage_opens_collector :
  forall song sent outcome,
    (existsb is_collector (sendPlayingMessage song sent outcome) = true <->
     fulfilled sent = true /\
     forallb (fun sym => fulfilled (outcome sym)) controls = true) /\
    (fulfilled sent = true ->
     forallb (fun sym => fulfilled (outcome sym)) controls = true ->
     sendPlayingMessage song sent outcome =
       Panel_send song :: map Panel_react controls ++
         [Panel_createReactionCollector (collector_time song)] /\
     0 < collector_time song) /\
    (forall e, sent = Exc e ->
       sendPlayingMessage song sent outcome =
         [Panel_send song; Panel_console_error e; Panel_send_error e]) /\
    (fulfilled sent = true ->
     forallb (fun sym => fulfilled (outcome sym)) controls = false ->
     exists done sym later e,
       controls = done ++ sym :: later /\
       forallb (fun sym => fulfilled (outcome sym)) done = true /\
       outcome sym = Exc e /\
       sendPlayingMessage song sent outcome =
         Panel_send song :: map Panel_react (done ++ [sym]) ++
           [Panel_console_error e; Panel_send_error e]).
Proof.
  intros song sent outcome.
  assert (Hok : fulfilled sent = true ->
                forallb (fun sym => fulfilled (outcome sym)) controls = true ->
                sendPlayingMessage song sent outcome =
                  Panel_send song :: map Panel_react controls ++
                    [Panel_createReactionCollector (collector_time song)]).
  { intros Hs Hall. unfold sendPlayingMessage. destruct sent; [|discriminate].
    now rewrite (react_each_fulfilled _ _ Hall). }
  assert (Hbad : fulfilled sent = true ->
                 forallb (fun sym => fulfilled (outcome sym)) controls = false ->
                 exists done sym later e,
                   controls = done ++ sym :: later /\
                   forallb (fun sym => fulfilled (outcome sym)) done = true /\
                   outcome sym = Exc e /\
                   sendPlayingMessage song sent outcome =
                     Panel_send song :: map Panel_react (done ++ [sym]) ++
                       [Panel_console_error e; Panel_send_error e]).
  { intros Hs Hall. unfold sendPlayingMessage. destruct sent; [|discriminate].
    destruct (react_each_rejected _ _ Hall) as (done & sym & later & e & Hc & Hd & He & Hr).
    exists done, sym, later, e. rewrite Hr. repeat split; assumption. }
  split; [|split; [|split; [|exact Hbad]]].
  2: { intros Hs Hall. split; [now apply Hok | apply collector_time_positive]. }
  - split.
    + intros Hex. destruct sent as [u|e]; [|discriminate Hex].
      split; [reflexivity|].
      destruct (forallb (fun sym => fulfilled (outcome sym)) controls) eqn:Hall;
        [reflexivity|].
      destruct (Hbad eq_refl eq_refl) as (done & sym & later & e & _ & _ & _ & Heq).
      rewrite Heq in Hex. simpl in Hex.
      rewrite existsb_app, no_collector_in_reacts in Hex. discriminate Hex.
    + intros [Hs Hall]. rewrite (Hok Hs Hall). reflexivity.
  - intros e ->. reflexivity.
Qed.


(** ** Destroying the connection *)

Lemma step_disconnect_exhausted n newState w :
  cs_status newState = Disconnected -> closed_4014 newState = false -> 5 <= n ->
  step config (In_connectionStateChange n newState false) w =
    with_trace (trace w ++ [Conn_destroy])
      (on_mq (with_connection {| c_status := Destroyed; rejoinAttempts := n |}) w).
Proof.
  intros Hd Hc Hn. open_world w.
  unfold step, exec, connection_onStateChange, bind, get, modify. simpl.
  rewrite Hd, Hc. simpl.
  destruct (Z.ltb_spec n 5); [lia|].
  unfold_handlers; unfold_updates; simpl. reflexivity.
Qed.

(** X18. The connection is not destroyed twice: when a disconnect with the
    attempts used up has made the listener destroy the connection, a
    pending wait for [Ready] that is then rejected ends without another
    call of [destroy], normally, and with [readyLock] released. *)
Theorem destroy_not_repeated :
  forall w n newState e destroy_raises,
    cs_status newState = Disconnected -> closed_4014 newState = false -> 5 <= n ->
    (0 < awaiting_ready w)%nat ->
    destroys (run config [In_connectionStateChange n newState false;
                          In_readySettled (Exc e) destroy_raises] w) = S (destroys w) /\
    readyLock (mq (run config [In_connectionStateChange n newState false;
                               In_readySettled (Exc e) destroy_raises] w)) = false /\
    c_status (connection (mq (run config [In_connectionStateChange n newState false;
                                          In_readySettled (Exc e) destroy_raises] w))) =
      Destroyed.
Proof.
  intros w n newState e destroy_raises Hd Hc Hn Hready.
  rewrite run_cons, (step_disconnect_exhausted n newState w Hd Hc Hn), run_cons.
  change (run config [] ?x) with x.
  destruct w as [q t ar ab [|rd]]; [simpl in Hready; lia|]. destruct q.
  unfold_updates. simpl.
  unfold_handlers; unfold_updates; simpl.
  unfold destroys. simpl. rewrite filter_app, length_app. simpl.
  repeat split; lia.
Qed.

End MoreProperties.

(** X2 on a fresh session: an empty call, then two batches. *)
Lemma enqueue_requests_first_track_once_witness :
  awaiting_resource
    (run demo_config (map In_enqueue [[]; [song_b; song_a]; [song_c]])
       (initial demo_config demo_connection)) = [song_b] /\
  attempts
    (run demo_config (map In_enqueue [[]; [song_b; song_a]; [song_c]])
       (initial demo_config demo_connection)) = 1%nat.
Proof.
  destruct (enqueue_requests_first_track_once demo_config
              [[]; [song_b; song_a]; [song_c]]
              (initial demo_config demo_connection) song_b)
    as (Ha & Hat & _); try reflexivity.
  - repeat split.
  - split; [exact Ha | exact Hat].
Defined.

(** X3 on a fresh session with a timer handle stored, and on the stalled
    sample session with one. *)
Lemma enqueue_edge_cases_witness :
  loop (mq (step demo_config (In_enqueue [])
              (on_mq (with_waitTimeout (Some 9%nat))
                 (initial demo_config demo_connection)))) = false /\
  trace (step demo_config (In_enqueue [])
           (on_mq (with_waitTimeout (Some 9%nat))
              (initial demo_config demo_connection))) =
    [ClearTimeout 9; Call_processQueue; Player_stop; Channel_send QueueEnded] /\
  waitTimeout (mq (step demo_config (In_enqueue [song_b]) demo_with_timer)) =
    Some 9%nat.
Proof.
  destruct (enqueue_edge_cases demo_config) as [Hnone Htimer].
  destruct (Hnone (on_mq (with_waitTimeout (Some 9%nat))
                     (initial demo_config demo_connection)))
    as (Hl & _ & Ht); [repeat split | reflexivity |].
  split; [exact Hl|]. split; [exact Ht|].
  apply (Htimer demo_with_timer [song_b] 9%nat). reflexivity.
Defined.

(** X4 and X5 on the sample session, whose first track is playing. *)
Lemma player_error_advances_queue_witness :
  step demo_config (In_playerError (Failure 2)) demo_playing =
    with_trace (trace demo_playing ++ [Console_error (Failure 2); Call_processQueue])
      (on_mq (with_songs [song_b; song_c]) demo_playing).
Proof.
  apply (proj2 (player_error_advances_queue demo_config) (Failure 2) demo_playing).
  discriminate.
Defined.

Lemma error_then_completion_advances_twice_witness :
  songs (mq (run demo_config [In_playerError (Failure 2); In_playerStateChange Playing Idle]
               demo_playing)) = [song_c].
Proof.
  apply (error_then_completion_advances_twice demo_config (Failure 2) Playing demo_playing);
    [discriminate | discriminate | reflexivity].
Defined.

(** X7 on the sample session while the first request is in flight. *)
Lemma stop_keeps_request_in_flight_witness :
  plays (run demo_config [In_stop; In_resourceSettled 0 (Val (resource_of song_a))]
           demo_requesting) = 1%nat /\
  songs (mq (run demo_config [In_stop; In_resourceSettled 0 (Val (resource_of song_a))]
               demo_requesting)) = [].
Proof.
  destruct (stop_keeps_request_in_flight demo_config demo_requesting song_a
              (resource_of song_a)) as (Hp & _ & Hs & _).
  - apply reachable_run. constructor.
  - left. reflexivity.
  - split; [exact Hp | exact Hs].
Defined.

(** X8 on the sample session. *)
Lemma plays_follow_requests_witness :
  (plays demo_playing + List.length (awaiting_resource demo_playing)
   <= attempts demo_playing)%nat.
Proof.
  apply (plays_follow_requests demo_config).
  unfold demo_playing, demo_requesting. repeat apply reachable_run. constructor.
Defined.

(** X9 on the muted sample session: the second track arrives. *)
Lemma new_track_starts_unmuted_witness :
  resource (mq (exec (processQueue_resume demo_config song_b (Val (resource_of song_b)))
                  demo_muted_quiet)) =
    Some {| res_song := song_b; res_volume := Some (gain_of 10) |} /\
  muted (mq (exec (processQueue_resume demo_config song_b (Val (resource_of song_b)))
               demo_muted_quiet)) = true /\
  resource (mq (exec (processQueue_resume demo_config song_b
                        (Val {| res_song := song_b; res_volume := None |}))
                  demo_muted_quiet)) =
    Some {| res_song := song_b; res_volume := None |}.
Proof.
  destruct (new_track_starts_unmuted demo_config) as [Hgain Hplain].
  destruct (Hgain demo_muted_quiet song_b (resource_of song_b) 1%Q eq_refl)
    as (Hr & _ & Hm & _).
  destruct (Hplain demo_muted_quiet song_b {| res_song := song_b; res_volume := None |}
              eq_refl) as (Hr' & _).
  split; [exact Hr|]. split; [exact Hm | exact Hr'].
Defined.

(** X10 on the stalled sample session: two more failures. *)
Lemma failing_head_blocks_queue_witness :
  songs (mq (run demo_config (retries [Failure 1; Failure 2]) demo_stalled)) =
    [song_a; song_b; song_c] /\
  attempts (run demo_config (retries [Failure 1; Failure 2]) demo_stalled) =
    (attempts demo_stalled + 2)%nat.
Proof.
  destruct (failing_head_blocks_queue demo_config [Failure 1; Failure 2] demo_stalled
              song_a [song_b; song_c]) as (Hs & Ha & _).
  - repeat split.
  - reflexivity.
  - split; [exact Hs | exact Ha].
Defined.

(** X11 and X12 on the sample session. *)
Lemma collect_frame_witness :
  songs (mq (step demo_config (In_collect SymMute (Val moderator)) demo_playing)) =
    songs (mq demo_playing) /\
  plays (step demo_config (In_collect SymVolumeUp (Val moderator)) demo_playing) =
    plays demo_playing.
Proof.
  destruct (collect_frame demo_config) as (_ & _ & _ & Hframe).
  split.
  - apply (Hframe SymMute (Val moderator) demo_playing). reflexivity.
  - apply (Hframe SymVolumeUp (Val moderator) demo_playing). reflexivity.
Defined.

Lemma collect_changes_need_permission_witness :
  step demo_config (In_collect SymMute (Val bystander)) demo_playing =
    with_trace (trace demo_playing ++ [Reaction_remove]) demo_playing /\
  step demo_config (In_collect SymVolumeDown (Val bystander)) demo_playing =
    with_trace (trace demo_playing ++ [Reaction_remove]) demo_playing.
Proof.
  destruct (collect_changes_need_permission demo_config) as [Hmember _].
  split; apply Hmember; reflexivity.
Defined.

(** X13 on the sample session: the connection reports [Ready], and is
    removed from its endpoint. *)
Lemma connection_listener_frame_witness :
  connection_onStateChange demo_config false
    {| cs_status := Ready; cs_reason := None; cs_closeCode := None |} demo_playing =
    (Val tt, demo_playing) /\
  songs (mq (exec (connection_onStateChange demo_config false endpoint_removed)
               demo_playing)) = songs (mq demo_playing).
Proof.
  destruct (connection_listener_frame demo_config) as [Hignored Hframe].
  split.
  - apply Hignored. left. reflexivity.
  - apply (Hframe demo_playing endpoint_removed false). reflexivity.
Defined.

(** X14 on the sample session after two disconnects, one wait elapsed. *)
Lemma rejoins_follow_waits_witness :
  (rejoins (run demo_config [In_connectionStateChange 0 endpoint_removed false;
                             In_connectionStateChange 1 endpoint_removed false;
                             In_backoffElapsed 0] demo_playing) +
   List.length (awaiting_backoff
                  (run demo_config [In_connectionStateChange 0 endpoint_removed false;
                                    In_connectionStateChange 1 endpoint_removed false;
                                    In_backoffElapsed 0] demo_playing)))%nat =
  waits (run demo_config [In_connectionStateChange 0 endpoint_removed false;
                          In_connectionStateChange 1 endpoint_removed false;
                          In_backoffElapsed 0] demo_playing).
Proof.
  apply (rejoins_follow_waits demo_config).
  unfold demo_playing, demo_requesting. repeat apply reachable_run. constructor.
Defined.

(** X15 on the sample session, whose configured default is 50. *)
Lemma reachable_volume_in_range_witness :
  volume (mq (initial {| DEFAULT_VOLUME := Some 0; PRUNING := true |} demo_connection)) =
    100 /\
  0 <= volume (mq demo_muted_quiet) <= 100.
Proof.
  split.
  - apply (reachable_volume_in_range {| DEFAULT_VOLUME := Some 0; PRUNING := true |}).
    right. reflexivity.
  - apply (reachable_volume_in_range demo_config).
    + vm_compute. split; discriminate.
    + unfold demo_muted_quiet, demo_playing, demo_requesting.
      repeat apply reachable_run. constructor.
Defined.

(** X16 on the sample session: the track is paused; and a completion on a
    session that has nothing queued and never held a resource. *)
Lemma player_listener_quiet_cases_witness :
  step demo_config (In_playerStateChange Playing Paused) demo_playing =
    with_trace (trace demo_playing ++ [])
      (on_mq (with_player {| p_status := Paused |}) demo_playing) /\
  step demo_config (In_playerStateChange Playing Idle)
    (initial demo_config demo_connection) =
    on_mq (fun q => with_songs [] (with_player {| p_status := Idle |} q))
      (initial demo_config demo_connection).
Proof.
  destruct (player_listener_quiet_cases demo_config) as [Hother Hnothing].
  split.
  - apply (Hother Playing Paused demo_playing eq_refl).
  - apply Hnothing; [discriminate | reflexivity | reflexivity].
Defined.

(** X17 for the first sample track: everything works, and adding the mute
    reaction fails. *)
Lemma sendPlayingMessage_opens_collector_witness :
  sendPlayingMessage song_a (Val tt) all_fine =
    Panel_send song_a :: map Panel_react controls ++ [Panel_createReactionCollector 180000] /\
  sendPlayingMessage song_a (Exc (Failure 5)) all_fine =
    [Panel_send song_a; Panel_console_error (Failure 5); Panel_send_error (Failure 5)] /\
  existsb is_collector (sendPlayingMessage song_a (Val tt) mute_rejected) = false.
Proof.
  destruct (sendPlayingMessage_opens_collector song_a (Val tt) all_fine)
    as (_ & Hopen & _).
  destruct (sendPlayingMessage_opens_collector song_a (Exc (Failure 5)) all_fine)
    as (_ & _ & Hsend & _).
  destruct (sendPlayingMessage_opens_collector song_a (Val tt) mute_rejected)
    as (_ & _ & _ & Hreact).
  split; [apply (Hopen eq_refl eq_refl)|].
  split; [apply (Hsend (Failure 5) eq_refl)|].
  destruct (Hreact eq_refl eq_refl) as (done & sym & later & e & _ & _ & _ & Heq).
  rewrite Heq. simpl. rewrite existsb_app, no_collector_in_reacts. reflexivity.
Defined.

(** X18 on the sample session while it waits for the connection. *)
Lemma destroy_not_repeated_witness :
  destroys (run demo_config [In_connectionStateChange 5 endpoint_removed false;
                             In_readySettled (Exc (Failure 6)) true]
              (step demo_config (In_connectionStateChange 0 signalling false)
                 demo_playing)) = 1%nat.
Proof.
  apply (destroy_not_repeated demo_config
           (step demo_config (In_connectionStateChange 0 signalling false) demo_playing)
           5 endpoint_removed (Failure 6) true);
    [reflexivity | reflexivity | discriminate | vm_compute; constructor].
Defined.
